(** * Character diff of the mentions-input widget

    Shallow embedding of [diffChars] and its helpers ([extractCommon],
    [pushComponent], [clonePath], [buildValues]) from
    [js_emhQreFTfpToffHuh8laahETA8MZ7003ohbqltmuJ7M.js], lines 1210-1350,
    and the properties of the edit scripts it returns.

    Modelling conventions.
    - A JavaScript string is a list of code units over an arbitrary type [A]
      with decidable equality; [s.length] is [length s], [s[i]] is [charAt].
    - Numbers are integers ([Z]); a field or a sum that is not a number
      ([undefined] or [NaN]) is [None].
    - A flag ([added], [removed]) is [Some true] or [None] ([undefined],
      also when the property is absent).
    - [bestPath], a JavaScript array also indexed by negative integers, is a
      finite map from [Z]; assigning [undefined] to an entry removes it.
    - Component objects are never mutated during the search (a merge
      allocates a fresh object), [clonePath] copies the array, and the path
      that is extended in place has just been taken out of [bestPath], so
      paths are plain values.
    - A loop is a recursion on the number of iterations it has left, which
      the code fixes in advance: [maxEditLength] passes, [editLength + 1]
      diagonals per pass, at most [newLen - (newPos + 1)] matches.
    - Every function takes [oldString] before [newString], whatever the
      order of its JavaScript parameters. *)

From Stdlib Require Import ZArith Lia Ascii String.
From stdpp Require Import base option list gmap.

Local Open Scope Z_scope.

Ltac Zify.zify_post_hook ::= Z.div_mod_to_equations.

(** ** Data model *)

Section Model.
Context {A : Type} `{EqDecision A}.

(** [{count: .., added: .., removed: .., value: ..}] *)
Record component := Component {
  count : option Z;
  added : option bool;
  removed : option bool;
  value : option (list A)
}.

(** [{newPos: .., components: [..]}] *)
Record path := Path {
  newPos : Z;
  components : list component
}.

#[export] Instance component_eq_dec : EqDecision component.
Proof. solve_decision. Defined.

(** Truthiness of a flag: [if (c.added)], [!c.removed]. *)
Definition truthy (f : option bool) : bool :=
  match f with Some true => true | _ => false end.

(** [s[i]]: [undefined] outside the string. *)
Definition charAt (s : list A) (i : Z) : option A :=
  if bool_decide (0 ≤ i) then s !! Z.to_nat i else None.

(** Relative index of [String.prototype.slice]: [NaN] counts as 0, a negative
    index counts from the end, everything is clamped to the string. *)
Definition sliceIndex (len : Z) (i : option Z) : Z :=
  match i with
  | None => 0
  | Some i => if bool_decide (i < 0) then Z.max (len + i) 0 else Z.min i len
  end.

(** [s.slice(from, to)] *)
Definition slice (s : list A) (from to : option Z) : list A :=
  let len := Z.of_nat (length s) in
  let a := sliceIndex len from in
  let b := sliceIndex len to in
  take (Z.to_nat (b - a)) (drop (Z.to_nat a) s).

(** [a + b] on numbers; [NaN] as soon as one operand is not a number. *)
Definition plus (a b : option Z) : option Z :=
  match a, b with Some a, Some b => Some (a + b) | _, _ => None end.

(** ** The helpers *)

(** [clonePath]: a new path object with a copy of the array. *)
Definition clonePath (p : path) : path :=
  Path (newPos p) (components p).

(** [pushComponent(components, added, removed)] (lines 1316-1325). *)
Definition pushComponent (cs : list component) (a r : option bool)
  : list component :=
  match last cs with
  | Some l =>
      if bool_decide (added l = a) && bool_decide (removed l = r)
      then <[ (length cs - 1)%nat := Component (plus (count l) (Some 1)) a r None ]> cs
      else cs ++ [Component (Some 1) a r None]
  | None => cs ++ [Component (Some 1) a r None]
  end.

Section Strings.
Variables oldString newString : list A.

Definition newLen : Z := Z.of_nat (length newString).
Definition oldLen : Z := Z.of_nat (length oldString).

(** The [while] loop of [extractCommon] (line 1334).  Every iteration
    increments [newPos] and needs [newPos+1 < newLen], so the loop runs at
    most [newLen - (newPos+1)] times: [n] is that bound. *)
Fixpoint extractLoop (n : nat) (newPos oldPos commonCount : Z) : Z * Z * Z :=
  match n with
  | O => (newPos, oldPos, commonCount)
  | S n' =>
      if bool_decide (newPos + 1 < newLen) && bool_decide (oldPos + 1 < oldLen)
         && bool_decide (charAt newString (newPos + 1) = charAt oldString (oldPos + 1))
      then extractLoop n' (newPos + 1) (oldPos + 1) (commonCount + 1)
      else (newPos, oldPos, commonCount)
  end.

(** [extractCommon(basePath, newString, oldString, diagonalPath)] (lines
    1327-1346): the updated path and the returned [oldPos]. *)
Definition extractCommon (basePath : path) (diagonalPath : Z) : path * Z :=
  let '(newPos', oldPos', commonCount) :=
    extractLoop (Z.to_nat (newLen - (newPos basePath + 1)))
                (newPos basePath) (newPos basePath - diagonalPath) 0 in
  let cs := if bool_decide (commonCount ≠ 0)
            then components basePath ++ [Component (Some commonCount) None None None]
            else components basePath in
  (Path newPos' cs, oldPos').

(** The loop of [buildValues] (lines 1297-1311), from the current positions. *)
Fixpoint buildValuesFrom (cs : list component) (newPos oldPos : option Z)
  : list component :=
  match cs with
  | [] => []
  | c :: cs' =>
      if negb (truthy (removed c)) then
        Component (count c) (added c) (removed c)
                  (Some (slice newString newPos (plus newPos (count c))))
        :: buildValuesFrom cs' (plus newPos (count c))
             (if negb (truthy (added c)) then plus oldPos (count c) else oldPos)
      else
        Component (count c) (added c) (removed c)
                  (Some (slice oldString oldPos (plus oldPos (count c))))
        :: buildValuesFrom cs' newPos (plus oldPos (count c))
  end.

(** [buildValues(components, newString, oldString)] *)
Definition buildValues (cs : list component) : list component :=
  buildValuesFrom cs (Some 0) (Some 0).

(** ** The search *)

(** What one pass of the body of the [for] loop of [execEditLength] does:
    return a script, go on with an updated [bestPath], or raise a
    [TypeError] by reading [newPos] of [undefined]. *)
Inductive outcome :=
  | Return (script : list component)
  | Continue (bestPath : gmap Z path)
  | Throw.

(** [addPath && addPath.newPos+1 < newLen] *)
Definition canAdd (addPath : option path) : bool :=
  match addPath with
  | Some a => bool_decide (newPos a + 1 < newLen)
  | None => false
  end.

(** [removePath && 0 <= oldPos && oldPos < oldLen] *)
Definition canRemove (removePath : option path) (oldPos : Z) : bool :=
  match removePath with
  | Some _ => bool_decide (0 ≤ oldPos) && bool_decide (oldPos < oldLen)
  | None => false
  end.

(** [addPath.newPos < removePath.newPos]; [None] is the [TypeError]. *)
Definition behind (addPath removePath : option path) : option bool :=
  match addPath, removePath with
  | Some a, Some r => Some (bool_decide (newPos a < newPos r))
  | _, _ => None
  end.

(** The condition of line 1256, with JavaScript's short-circuit evaluation:
    [!canAdd || (canRemove && addPath.newPos < removePath.newPos)]. *)
Definition branchFromRemove (addPath removePath : option path) (oldPos : Z)
  : option bool :=
  if negb (canAdd addPath) then Some true
  else if canRemove removePath oldPos then behind addPath removePath
  else Some false.

(** Lines 1256-1263: the path the diagonal is extended from, after its edit. *)
Definition selectBase (addPath removePath : option path) (oldPos : Z)
  : option path :=
  match branchFromRemove addPath removePath oldPos with
  | Some true =>
      match removePath with
      | Some r =>
          let basePath := clonePath r in
          Some (Path (newPos basePath)
                     (pushComponent (components basePath) None (Some true)))
      | None => None
      end
  | Some false =>
      match addPath with
      | Some a => Some (Path (newPos a + 1)
                             (pushComponent (components a) (Some true) None))
      | None => None
      end
  | None => None
  end.

(** The body of the [for] loop of [execEditLength] (lines 1236-1273). *)
Definition execDiagonal (bestPath : gmap Z path) (diagonalPath : Z) : outcome :=
  let addPath := bestPath !! (diagonalPath - 1) in
  let removePath := bestPath !! (diagonalPath + 1) in
  let oldPos := (match removePath with Some r => newPos r | None => 0 end)
                - diagonalPath in
  let bestPath := match addPath with
                  | Some _ => delete (diagonalPath - 1) bestPath
                  | None => bestPath
                  end in
  if negb (canAdd addPath) && negb (canRemove removePath oldPos)
  then Continue (delete diagonalPath bestPath)
  else
    match selectBase addPath removePath oldPos with
    | None => Throw
    | Some basePath =>
        let '(basePath, oldPos) := extractCommon basePath diagonalPath in
        if bool_decide (newLen ≤ newPos basePath + 1) && bool_decide (oldLen ≤ oldPos + 1)
        then Return (buildValues (components basePath))
        else Continue (<[diagonalPath := basePath]> bestPath)
    end.

(** The [for] loop of [execEditLength]: [n] diagonals are left, the next one
    is [diagonalPath]; the step is 2. *)
Fixpoint diagonalLoop (n : nat) (diagonalPath : Z) (bestPath : gmap Z path)
  : outcome :=
  match n with
  | O => Continue bestPath
  | S n' =>
      match execDiagonal bestPath diagonalPath with
      | Continue bestPath' => diagonalLoop n' (diagonalPath + 2) bestPath'
      | o => o
      end
  end.

(** [execEditLength()] (lines 1234-1277) at the current [editLength]:
    diagonals [-editLength, -editLength+2, ..., editLength].  [Continue] is
    the final [editLength++] with no value returned. *)
Definition execEditLength (editLength : Z) (bestPath : gmap Z path) : outcome :=
  diagonalLoop (Z.to_nat (editLength + 1)) (- editLength) bestPath.

(** What [diffChars] does: return a script, fall off the end of the function
    (the value is [undefined]), or raise. *)
Inductive result :=
  | Script (script : list component)
  | Undefined
  | TypeError.

(** The [while (editLength <= maxEditLength)] loop (lines 1282-1288) with [n]
    passes left, [n = maxEditLength - editLength + 1]. *)
Fixpoint editLoop (n : nat) (editLength : Z) (bestPath : gmap Z path) : result :=
  match n with
  | O => Undefined
  | S n' =>
      match execEditLength editLength bestPath with
      | Return ret => Script ret
      | Continue bestPath' => editLoop n' (editLength + 1) bestPath'
      | Throw => TypeError
      end
  end.

(** [diffChars(oldString, newString)] (lines 1210-1289). *)
Definition diffChars : result :=
  if bool_decide (newString = oldString) then
    Script [Component None None None (Some newString)]
  else if bool_decide (newString = []) then
    Script [Component None None (Some true) (Some oldString)]
  else if bool_decide (oldString = []) then
    Script [Component None (Some true) None (Some newString)]
  else
    let maxEditLength := newLen + oldLen in
    let bestPath : gmap Z path := {[ 0 := Path (-1) [] ]} in
    let '(seed, oldPos) := extractCommon (Path (-1) []) 0 in
    let bestPath := <[0 := seed]> bestPath in
    if bool_decide (newLen ≤ newPos seed + 1) && bool_decide (oldLen ≤ oldPos + 1)
    then Script [Component None None None (Some newString)]
    else editLoop (Z.to_nat maxEditLength) 1 bestPath.

End Strings.
End Model.

Arguments component : clear implicits.
Arguments path : clear implicits.
Arguments outcome : clear implicits.
Arguments result : clear implicits.

(** ** Reference notions the scripts are measured against *)

Section Reference.
Context {A : Type} `{EqDecision A}.

(** Insert/delete edit distance by the textbook recurrence: equal heads are
    matched for free, different heads cost one deletion or one insertion. *)
Fixpoint editDistance (xs ys : list A) {struct xs} : nat :=
  match xs with
  | [] => length ys
  | x :: xs' =>
      (fix against (ys : list A) : nat :=
         match ys with
         | [] => S (length xs')
         | y :: ys' =>
             if decide (x = y) then editDistance xs' ys'
             else S (Nat.min (editDistance xs' (y :: ys')) (against ys'))
         end) ys
  end.

(** Longest common prefix. *)
Fixpoint commonPrefix (xs ys : list A) : list A :=
  match xs, ys with
  | x :: xs', y :: ys' => if decide (x = y) then x :: commonPrefix xs' ys' else []
  | _, _ => []
  end.

Definition isAdded (c : component A) : bool := truthy (added c).
Definition isRemoved (c : component A) : bool := truthy (removed c).
Definition isCommon (c : component A) : bool :=
  negb (isAdded c) && negb (isRemoved c).

(** Sum of the [count] fields of the added and removed components, computed
    as JavaScript would: not a number as soon as one of them is missing. *)
Definition editCount (r : list (component A)) : option Z :=
  foldr (fun c acc => if isAdded c || isRemoved c then plus (count c) acc else acc)
        (Some 0) r.

(** Concatenation of the [value] fields of the components selected by
    [keep]; [None] when one of them has no value. *)
Definition valuesOf (keep : component A → bool) (r : list (component A))
  : option (list A) :=
  mjoin <$> mapM value (filter (fun c => keep c = true) r).

Definition newValues (r : list (component A)) : option (list A) :=
  valuesOf (fun c => negb (isRemoved c)) r.
Definition oldValues (r : list (component A)) : option (list A) :=
  valuesOf (fun c => negb (isAdded c)) r.

(** Number of elements carried by the added and removed components. *)
Definition valueCost (r : list (component A)) : nat :=
  sum_list (map (fun c => if isAdded c || isRemoved c
                          then length (default [] (value c)) else 0%nat) r).

(** A valid edit script from [old] to [new]: every component has a value,
    and the values rebuild both sequences. *)
Definition validScript (old new : list A) (r : list (component A)) : Prop :=
  oldValues r = Some old ∧ newValues r = Some new.

(** The fields the search sets, as opposed to the value filled in last. *)
Definition header (c : component A) : option Z * option bool * option bool :=
  (count c, added c, removed c).

(** A component whose count is the length of its value, at least 1. *)
Definition counted (c : component A) : Prop :=
  ∃ v, value c = Some v ∧ count c = Some (Z.of_nat (length v)) ∧ v ≠ [].

(** Two components of the same kind: the same [(added, removed)] pair. *)
Definition sameKind (c1 c2 : component A) : Prop :=
  added c1 = added c2 ∧ removed c1 = removed c2.

(** No two consecutive components of the same kind. *)
Fixpoint noAdjacent (r : list (component A)) : Prop :=
  match r with
  | c1 :: ((c2 :: _) as r') => ¬ sameKind c1 c2 ∧ noAdjacent r'
  | _ => True
  end.

(** The count of a component is a number, at least 1. *)
Definition positiveCount (c : component A) : Prop :=
  ∃ n, count c = Some n ∧ 1 ≤ n.

(** At most one of the two flags is set. *)
Definition oneFlag (c : component A) : Prop :=
  ¬ (isAdded c ∧ isRemoved c).

(** [bestPath] when [diffChars] enters its [while] loop: the seed of lines
    1224-1227. *)
Definition seedBestPath (old new : list A) : gmap Z (path A) :=
  <[0 := (extractCommon old new (Path (-1) []) 0).1]> {[ 0 := Path (-1) [] ]}.

(** [bestPath] after [n] passes of [execEditLength], the first at edit length
    [editLength], that all ended without a script; [None] if one of them
    returned or raised. *)
Fixpoint failedPasses (old new : list A) (n : nat) (editLength : Z)
    (bestPath : gmap Z (path A)) : option (gmap Z (path A)) :=
  match n with
  | O => Some bestPath
  | S n' =>
      match execEditLength old new editLength bestPath with
      | Continue bestPath' => failedPasses old new n' (editLength + 1) bestPath'
      | _ => None
      end
  end.

(** The counts of the edits of [diffChars old new] add up to the distance. *)
Definition countsGiveDistance (old new : list A) : Prop :=
  ∃ s, diffChars old new = Script s
       ∧ editCount s = Some (Z.of_nat (editDistance old new)).

(** With both moves possible, the search branches from the insert path
    exactly when that path is strictly behind in the new sequence. *)
Definition insertIffBehind (old new : list A) (a r : path A) (oldPos : Z)
  : Prop :=
  branchFromRemove old new (Some a) (Some r) oldPos = Some false
  ↔ newPos a < newPos r.

End Reference.

(** Strings of the examples. *)
Definition str (s : string) : list ascii := list_ascii_of_string s.

(** ** Elementary moves and the invariant of the search *)

Inductive move := Keep | Ins | Del.

#[export] Instance move_eq_dec : EqDecision move.
Proof. solve_decision. Defined.

Section Invariant.
Context {A : Type} `{EqDecision A}.
Variables oldString newString : list A.

(** The move a search component repeats. *)
Definition moveOf (c : component A) : move :=
  if isRemoved c then Del else if isAdded c then Ins else Keep.

(** A component as the search builds it: a positive count, no value yet,
    and one of the three flag pairs. *)
Definition searchComponent (c : component A) : Prop :=
  (∃ n, count c = Some n ∧ 1 ≤ n) ∧ value c = None ∧
  ((added c = None ∧ removed c = None) ∨
   (added c = Some true ∧ removed c = None) ∨
   (added c = None ∧ removed c = Some true)).

(** A component list unfolded into single moves. *)
Definition moves (cs : list (component A)) : list move :=
  cs ≫= (fun c => replicate (Z.to_nat (default 0 (count c))) (moveOf c)).

(** Replaying moves from [x] consumed elements of the new sequence and [y]
    of the old one; [None] when a move is not possible there. *)
Fixpoint replay (ms : list move) (x y : nat) : option (nat * nat) :=
  match ms with
  | [] => Some (x, y)
  | Keep :: ms' =>
      match newString !! x, oldString !! y with
      | Some a, Some b => if decide (a = b) then replay ms' (S x) (S y) else None
      | _, _ => None
      end
  | Ins :: ms' => if decide (x < length newString)%nat then replay ms' (S x) y else None
  | Del :: ms' => if decide (y < length oldString)%nat then replay ms' x (S y) else None
  end.

Definition edits (ms : list move) : nat :=
  length (filter (fun m => m ≠ Keep) ms).

(** Distance still to cover from a point of the edit graph. *)
Definition remaining (x y : nat) : nat :=
  editDistance (drop y oldString) (drop x newString).

(** No further match at [(x, y)]: a snake ends here. *)
Definition snakeEnd (x y : nat) : Prop :=
  ∀ a b, newString !! x = Some a → oldString !! y = Some b → a ≠ b.

(** Elements consumed by a path on diagonal [k]. *)
Definition consumedNew (p : path A) : nat := Z.to_nat (newPos p + 1).
Definition consumedOld (p : path A) (k : Z) : nat := Z.to_nat (newPos p - k + 1).

(** The first component is the common prefix, when there is one. *)
Definition prefixFirst (cs : list (component A)) : Prop :=
  commonPrefix oldString newString ≠ [] →
  head cs = Some (Component (Some (Z.of_nat (length (commonPrefix oldString newString))))
                            None None None).

(** Components that make a sound partial script with [d] edits ending at
    [(x, y)]. *)
Definition scriptTo (d : Z) (x y : nat) (cs : list (component A)) : Prop :=
  Forall searchComponent cs ∧ noAdjacent cs ∧ prefixFirst cs ∧
  replay (moves cs) 0 0 = Some (x, y) ∧ Z.of_nat (edits (moves cs)) = d.

(** A path stored in [bestPath] at diagonal [k] after the pass for edit
    length [d]. *)
Definition pathOk (d k : Z) (p : path A) : Prop :=
  -1 ≤ newPos p ∧ -1 ≤ newPos p - k ∧ (k + d) mod 2 = 0 ∧
  scriptTo d (consumedNew p) (consumedOld p k) (components p) ∧
  snakeEnd (consumedNew p) (consumedOld p k) ∧
  (consumedNew p < length newString ∨ consumedOld p k < length oldString)%nat.

(** [bestPath] after the pass for edit length [d]. *)
Definition passOk (d : Z) (bestPath : gmap Z (path A)) : Prop :=
  ∀ j p, bestPath !! j = Some p → pathOk d j p ∧ - d ≤ j ≤ d.

(** A script returned by the search at edit length [d]. *)
Definition found (d : Z) (r : list (component A)) : Prop :=
  ∃ cs, r = buildValues oldString newString cs ∧
        scriptTo d (length newString) (length oldString) cs.

(** The two ways [pushComponent] is called. *)
Definition editFlags (a r : option bool) (m : move) : Prop :=
  (a = Some true ∧ r = None ∧ m = Ins) ∨ (a = None ∧ r = Some true ∧ m = Del).

(** The component [extractCommon] appends for a run of [c] matches. *)
Definition snake (c : nat) : list (component A) :=
  if decide (c = 0%nat) then []
  else [Component (Some (Z.of_nat c)) None None None].

(** Every move that was possible from a path of [bp0] onto a diagonal below
    [k] is covered in [bp] by a path at least as far on that diagonal. *)
Definition covered (k : Z) (bp0 bp : gmap Z (path A)) : Prop :=
  (∀ j a, bp0 !! j = Some a → j + 1 < k →
          (consumedNew a < length newString)%nat →
          ∃ p, bp !! (j + 1) = Some p ∧ (S (consumedNew a) ≤ consumedNew p)%nat)
  ∧ (∀ j r, bp0 !! j = Some r → j - 1 < k →
            (consumedOld r j < length oldString)%nat →
            ∃ p, bp !! (j - 1) = Some p ∧ (consumedNew r ≤ consumedNew p)%nat).

(** [bestPath] inside the pass for edit length [d], before diagonal [k]:
    diagonals from [k-1] on are as the pass found them in [bp0], those
    below hold the new paths. *)
Definition midPass (d k : Z) (bp0 bp : gmap Z (path A)) : Prop :=
  (∀ j, k - 1 ≤ j → bp !! j = bp0 !! j)
  ∧ (∀ j p, j < k - 1 → bp !! j = Some p → pathOk d j p ∧ - d ≤ j)
  ∧ covered k bp0 bp.

(** Some stored path is on a shortest way to the goal: what it still has to
    cover plus the edit length [d] does not exceed the distance. *)
Definition onShortest (d : Z) (bp : gmap Z (path A)) : Prop :=
  ∃ j p, bp !! j = Some p ∧
         Z.of_nat (remaining (consumedNew p) (consumedOld p j)) + d
         ≤ Z.of_nat (editDistance oldString newString).

End Invariant.

(** * The mentions input around [diffChars]

    The functions of the same file that call [diffChars] or prepare what its
    callers show: [escapeHtml], [escapeRegExp] (lines 574-583),
    [_markupMention] (727-729), and of [MentionsInput] [_update],
    [_updateMentions], [_addMention], [_updateValue], [_replaceWithSpaces],
    [_cutChar] and [clear] (879-1018).

    A mention object is a record of the properties these functions read or
    write: [pos], [value] and [uid]; a missing [value] is [None], and reading
    its [length] raises a [TypeError], which makes the function return
    [None].  The mention objects of [this.mentions] are taken to be distinct
    objects, as every call of [_addMention] in the file passes a fresh one,
    so the array is a list of values.  The DOM is reduced to what is stored
    in it: the text of the input, of the hidden field and of the
    highlighter.  A callback ([options.markup]) is a function. *)

Module Mention.
Record t (A : Type) := Make {
  pos : option Z;
  value : option (list A);
  uid : list A
}.
Arguments Make {A} _ _ _.
Arguments pos {A} _.
Arguments value {A} _.
Arguments uid {A} _.
End Mention.

Section MentionsModel.
Context {A : Type} `{EqDecision A}.

(** An argument of [String.prototype.substring]: [NaN] counts as 0, and the
    index is clamped to the string. *)
Definition substringIndex (len : Z) (i : option Z) : Z :=
  match i with
  | None => 0
  | Some i => Z.min (Z.max i 0) len
  end.

(** [s.substring(start, end)]: the arguments are swapped when [start] is
    larger than [end]. *)
Definition substring (s : list A) (start finish : option Z) : list A :=
  let len := Z.of_nat (length s) in
  let a := substringIndex len start in
  let b := substringIndex len finish in
  take (Z.to_nat (Z.max a b - Z.min a b)) (drop (Z.to_nat (Z.min a b)) s).

(** [s.substring(start)] *)
Definition substringFrom (s : list A) (start : option Z) : list A :=
  substring s start (Some (Z.of_nat (length s))).

(** [-a] on numbers. *)
Definition negate (a : option Z) : option Z := Z.opp <$> a.

(** [a >= b] on numbers: false as soon as one of them is [NaN]. *)
Definition geq (a b : option Z) : bool :=
  match a, b with
  | Some a, Some b => bool_decide (b ≤ a)
  | _, _ => false
  end.

(** [update_pos(cursor, delta)] (lines 889-902): every mention at or after
    [cursor] moves by [delta]. *)
Definition update_pos (mentions : list (Mention.t A)) (cursor delta : option Z)
  : list (Mention.t A) :=
  (fun mention =>
     if geq (Mention.pos mention) cursor
     then Mention.Make (plus (Mention.pos mention) delta)
                       (Mention.value mention) (Mention.uid mention)
     else mention) <$> mentions.

(** The loop over the changes of [_updateMentions] (lines 905-915). *)
Fixpoint shiftLoop (diff : list (component A)) (cursor : option Z)
    (mentions : list (Mention.t A)) : list (Mention.t A) :=
  match diff with
  | [] => mentions
  | change :: diff' =>
      let mentions :=
        if truthy (added change) then update_pos mentions cursor (count change)
        else if truthy (removed change)
             then update_pos mentions cursor (negate (count change))
             else mentions in
      let cursor := if negb (truthy (removed change))
                    then plus cursor (count change) else cursor in
      shiftLoop diff' cursor mentions
  end.

(** The text found in [value] where a mention with value [v] stands. *)
Definition pieceAt (value : list A) (p : option Z) (v : list A) : list A :=
  substring value p (plus p (Some (Z.of_nat (length v)))).

(** The loop of lines 917-923, which runs from the last mention to the
    first and takes out the mentions whose value is not at their position. *)
Fixpoint pruneLoop (value : list A) (mentions : list (Mention.t A))
  : option (list (Mention.t A)) :=
  match mentions with
  | [] => Some []
  | mention :: rest =>
      match pruneLoop value rest, Mention.value mention with
      | Some rest', Some v =>
          if bool_decide (v ≠ pieceAt value (Mention.pos mention) v)
          then Some rest'
          else Some (mention :: rest')
      | _, _ => None
      end
  end.

(** [_updateMentions] (lines 884-925), from [this.value], the text of the
    input and [this.mentions] to the new [this.value] and [this.mentions]. *)
Definition updateMentions (thisValue value : list A)
    (mentions : list (Mention.t A)) : option (list A * list (Mention.t A)) :=
  match diffChars thisValue value with
  | Script diff =>
      match pruneLoop value (shiftLoop diff (Some 0) mentions) with
      | Some mentions' => Some (value, mentions')
      | None => None
      end
  | _ => None
  end.

(** The comparison function of line 929, [a.pos - b.pos], as [sort] reads
    it: a result that is [NaN] counts as 0. *)
Definition comparePos (a b : Mention.t A) : Z :=
  match Mention.pos a, Mention.pos b with
  | Some x, Some y => x - y
  | _, _ => 0
  end.

(** [Array.prototype.sort] with that comparison function, as a stable
    insertion sort (the order ECMAScript 2019 fixes for a consistent
    comparison function).  The comparison is consistent when every
    position is a number; with a [NaN] among the results the order is left
    to the engine and is not what this sort gives. *)
Fixpoint insertByPos (m : Mention.t A) (sorted : list (Mention.t A))
  : list (Mention.t A) :=
  match sorted with
  | [] => [m]
  | m' :: rest =>
      if bool_decide (comparePos m m' ≤ 0) then m :: m' :: rest
      else m' :: insertByPos m rest
  end.

Definition sortByPos (mentions : list (Mention.t A)) : list (Mention.t A) :=
  foldr insertByPos [] mentions.

(** [_addMention] (lines 927-932). *)
Definition addMention (mentions : list (Mention.t A)) (mention : Mention.t A)
  : list (Mention.t A) :=
  sortByPos (mentions ++ [mention]).

(** The loop of [_updateValue] (lines 947-955) on the hidden content alone:
    the pieces of text between the mentions and the markup of the mentions,
    and the cursor it ends with.  A [pos] of [None] is read as [NaN], an
    end index of 0; a mention object with no [pos] property at all, whose
    piece would be the rest of the text, is outside this model. *)
Fixpoint hiddenLoop (markup : Mention.t A → list A) (value : list A)
    (mentions : list (Mention.t A)) (cursor : option Z)
  : option (list A * option Z) :=
  match mentions with
  | [] => Some ([], cursor)
  | mention :: rest =>
      let piece := substring value cursor (Mention.pos mention) in
      match Mention.value mention with
      | Some v =>
          match hiddenLoop markup value rest
                  (plus (Mention.pos mention) (Some (Z.of_nat (length v)))) with
          | Some (content, cursor') =>
              Some (piece ++ markup mention ++ content, cursor')
          | None => None
          end
      | None => None
      end
  end.

(** What [_updateValue] writes into the hidden field (line 960). *)
Definition hiddenValue (markup : Mention.t A → list A) (value : list A)
    (mentions : list (Mention.t A)) : option (list A) :=
  match hiddenLoop markup value mentions (Some 0) with
  | Some (content, cursor) => Some (content ++ substringFrom value cursor)
  | None => None
  end.

(** [_cutChar(value, index)] (lines 984-986). *)
Definition cutChar (value : list A) (index : Z) : list A :=
  substring value (Some 0) (Some index) ++ substringFrom value (Some (index + 1)).

(** [s.indexOf(what)]: the first position where [what] occurs. *)
Fixpoint indexOf (s what : list A) : option nat :=
  if bool_decide (what `prefix_of` s) then Some 0%nat
  else match s with
       | [] => None
       | _ :: s' => S <$> indexOf s' what
       end.

(** [s.replace(what, by)] for a string [what] and a replacement without
    [$]: only the first occurrence is replaced. *)
Definition replaceFirst (s what by_ : list A) : list A :=
  match indexOf s what with
  | Some i => take i s ++ by_ ++ drop (i + length what) s
  | None => s
  end.

(** [Array(n).join(sep)]: [n] empty items, so [n - 1] separators. *)
Definition joinEmpty (n : nat) (sep : A) : list A :=
  replicate (n - 1) sep.

(** ** What the properties of these functions are stated with *)

(** The mention has a value, and the text of [value] at its position is
    that value. *)
Definition inPlace (value : list A) (m : Mention.t A) : Prop :=
  ∃ v, Mention.value m = Some v ∧ v = pieceAt value (Mention.pos m) v.

Definition hasValue (m : Mention.t A) : Prop := is_Some (Mention.value m).

(** Elements of the old sequence, and of the new one, that a script
    covers: the lengths of the values it would be rebuilt from. *)
Definition oldLength (r : list (component A)) : Z :=
  Z.of_nat (sum_list ((fun c => if isAdded c then 0%nat
                                else length (default [] (value c))) <$> r)).
Definition newLength (r : list (component A)) : Z :=
  Z.of_nat (sum_list ((fun c => if isRemoved c then 0%nat
                                else length (default [] (value c))) <$> r)).

(** A mention moved to [p]. *)
Definition movedTo (m : Mention.t A) (p : Z) : Mention.t A :=
  Mention.Make (Some p) (Mention.value m) (Mention.uid m).

(** The mentions stand in [value] one after the other from [cursor] on,
    each with its value at its position. *)
Fixpoint lineUp (value : list A) (cursor : Z) (mentions : list (Mention.t A))
  : Prop :=
  match mentions with
  | [] => 0 ≤ cursor ≤ Z.of_nat (length value)
  | m :: rest =>
      ∃ p v, Mention.pos m = Some p ∧ Mention.value m = Some v
             ∧ 0 ≤ cursor ≤ p
             ∧ take (length v) (drop (Z.to_nat p) value) = v
             ∧ lineUp value (p + Z.of_nat (length v)) rest
  end.

(** The mentions are in the order of their positions, all numbers. *)
Fixpoint sortedByPos (mentions : list (Mention.t A)) : Prop :=
  match mentions with
  | [] => True
  | m :: rest =>
      (∃ p, Mention.pos m = Some p
            ∧ Forall (fun m' => ∃ q, Mention.pos m' = Some q ∧ p ≤ q) rest)
      ∧ sortedByPos rest
  end.

(** Where the loop over the changes leaves one position, and the cursor
    it ends with. *)
Fixpoint trackPos (diff : list (component A)) (cursor p : option Z)
  : option Z :=
  match diff with
  | [] => p
  | change :: diff' =>
      let p' :=
        if truthy (added change)
        then (if geq p cursor then plus p (count change) else p)
        else if truthy (removed change)
             then (if geq p cursor then plus p (negate (count change)) else p)
             else p in
      let cursor := if negb (truthy (removed change))
                    then plus cursor (count change) else cursor in
      trackPos diff' cursor p'
  end.

Fixpoint endCursor (diff : list (component A)) (cursor : option Z)
  : option Z :=
  match diff with
  | [] => cursor
  | change :: diff' =>
      endCursor diff' (if negb (truthy (removed change))
                       then plus cursor (count change) else cursor)
  end.

(** The three flag pairs the search gives a component. *)
Definition searchFlags (c : component A) : Prop :=
  (added c = None ∧ removed c = None)
  ∨ (added c = Some true ∧ removed c = None)
  ∨ (added c = None ∧ removed c = Some true).

(** A mention that begins before the first difference of the two texts,
    strictly inside their common prefix, and ends in that prefix. *)
Definition beforeChange (old new : list A) (m : Mention.t A) : Prop :=
  ∃ p v, Mention.pos m = Some p ∧ Mention.value m = Some v
         ∧ 0 ≤ p < Z.of_nat (length (commonPrefix old new))
         ∧ p + Z.of_nat (length v) ≤ Z.of_nat (length (commonPrefix old new))
         ∧ take (length v) (drop (Z.to_nat p) old) = v.

End MentionsModel.

(** ** The functions on characters *)

Local Open Scope char_scope.

(** The double quote, character 34. *)
Definition doubleQuote : ascii :=
  Ascii false true false false false true false false.

(** [entityMap] (lines 566-573). *)
Definition entityMap (s : ascii) : option (list ascii) :=
  if decide (s = "&") then Some (str "&amp;")
  else if decide (s = "<") then Some (str "&lt;")
  else if decide (s = ">") then Some (str "&gt;")
  else if decide (s = doubleQuote) then Some (str "&quot;")
  else if decide (s = "'") then Some (str "&#39;")
  else if decide (s = "/") then Some (str "&#x2F;")
  else None.

(** [escapeHtml] (lines 574-578): the characters of the class of line 575
    are the six keys of [entityMap]. *)
Definition escapeHtml (text : list ascii) : list ascii :=
  text ≫= (fun s => match entityMap s with Some e => e | None => [s] end).

(** The class [[.*+?|()\[\]{}\\$^]] of line 581. *)
Definition specials : list ascii :=
  str ".*+?|()[]{}\$^".

(** [escapeRegExp] (lines 579-583): a backslash before every special. *)
Definition escapeRegExp (s : list ascii) : list ascii :=
  s ≫= (fun c => if bool_decide (c ∈ specials) then ["\"; c] else [c]).

(** Reading an escaped string back: a backslash gives way to the character
    after it. *)
Fixpoint unescapeRegExp (s : list ascii) : list ascii :=
  match s with
  | "\" :: c :: s' => c :: unescapeRegExp s'
  | c :: s' => c :: unescapeRegExp s'
  | [] => []
  end.

(** An escaped string read as a pattern is literal throughout: a backslash
    is followed by a special, which it makes a literal, and outside these
    pairs there is no special. *)
Fixpoint literalOnly (s : list ascii) : bool :=
  match s with
  | "\" :: c :: s' => bool_decide (c ∈ specials) && literalOnly s'
  | c :: s' => negb (bool_decide (c ∈ specials)) && literalOnly s'
  | [] => true
  end.

(** The characters [escapeHtml] takes out of a text, all but the
    ampersand. *)
Definition markupChars : list ascii :=
  ["<"; ">"; doubleQuote; "'"; "/"].

(** [_markupMention] (lines 727-729); a value that is [undefined] prints
    as that word. *)
Definition markupMention (mention : Mention.t ascii) : list ascii :=
  str "@[" ++ default (str "undefined") (Mention.value mention)
  ++ str "](" ++ Mention.uid mention ++ str ")".

(** [_replaceWithSpaces(value, what)] (lines 980-982). *)
Definition replaceWithSpaces (value what : list ascii) : list ascii :=
  replaceFirst value what (joinEmpty (length what) " ").

(** The loop of [_updateValue] (lines 947-955) on the highlighter content,
    with a [pos] of [None] read as in [hiddenLoop]. *)
Fixpoint highlightLoop (value : list ascii) (mentions : list (Mention.t ascii))
    (cursor : option Z) : option (list ascii) :=
  match mentions with
  | [] => Some []
  | mention :: rest =>
      let piece := substring value cursor (Mention.pos mention) in
      match Mention.value mention with
      | Some v =>
          match highlightLoop value rest
                  (plus (Mention.pos mention) (Some (Z.of_nat (length v)))) with
          | Some content =>
              Some (escapeHtml piece ++ str "<strong>" ++ v ++ str "</strong>"
                    ++ content)
          | None => None
          end
      | None => None
      end
  end.

(** The widget as far as [_update] and [clear] go: the text of the input,
    [this.value], [this.mentions], and the texts of the hidden field and of
    the highlighter. *)
Record widget := Widget {
  inputVal : list ascii;
  thisValue : list ascii;
  mentions : list (Mention.t ascii);
  hiddenVal : list ascii;
  highlighterHtml : list ascii
}.

(** [_updateValue] (lines 940-961) with the options [markup] and
    [preview]. *)
Definition updateValue (markup : Mention.t ascii → list ascii) (preview : bool)
    (w : widget) : option widget :=
  match hiddenLoop markup (inputVal w) (mentions w) (Some 0),
        highlightLoop (inputVal w) (mentions w) (Some 0) with
  | Some (hdContent, cursor), Some hlContent =>
      let piece := substringFrom (inputVal w) cursor in
      Some (Widget (inputVal w) (thisValue w) (mentions w)
                   (hdContent ++ piece)
                   (if preview then hlContent ++ escapeHtml piece
                    else highlighterHtml w))
  | _, _ => None
  end.

(** [_update] (lines 879-882). *)
Definition update (markup : Mention.t ascii → list ascii) (preview : bool)
    (w : widget) : option widget :=
  match updateMentions (thisValue w) (inputVal w) (mentions w) with
  | Some (value, mentions') =>
      updateValue markup preview
        (Widget (inputVal w) value mentions' (hiddenVal w) (highlighterHtml w))
  | None => None
  end.

(** [clear] (lines 1015-1018). *)
Definition clear (markup : Mention.t ascii → list ascii) (preview : bool)
    (w : widget) : option widget :=
  update markup preview
    (Widget [] (thisValue w) (mentions w) (hiddenVal w) (highlighterHtml w)).

(** Two mentions for the examples: Bob at position 3, John at position 6. *)
Definition bob : Mention.t ascii :=
  Mention.Make (Some 3) (Some (str "Bob")) (str "7").
Definition john : Mention.t ascii :=
  Mention.Make (Some 6) (Some (str "John")) (str "12").

Local Close Scope char_scope.

(** * Properties *)

(** ** The reference distance *)

Section DistanceFacts.
Context {A : Type} `{EqDecision A}.
Implicit Types xs ys : list A.
Local Open Scope nat_scope.

Lemma editDistance_nil_r xs : editDistance xs [] = length xs.
Proof. by destruct xs. Qed.

Lemma editDistance_cons_eq a xs ys :
  editDistance (a :: xs) (a :: ys) = editDistance xs ys.
Proof. simpl. by rewrite decide_True. Qed.

Lemma editDistance_cons_ne a b xs ys :
  a ≠ b →
  editDistance (a :: xs) (b :: ys)
  = S (Nat.min (editDistance xs (b :: ys)) (editDistance (a :: xs) ys)).
Proof. intros Hne. simpl. by rewrite decide_False. Qed.

(** Dropping one head changes the distance by at most one. *)
Lemma editDistance_step xs ys :
  (∀ a, editDistance xs ys ≤ S (editDistance (a :: xs) ys)
        ∧ editDistance (a :: xs) ys ≤ S (editDistance xs ys))
  ∧ (∀ b, editDistance xs ys ≤ S (editDistance xs (b :: ys))
          ∧ editDistance xs (b :: ys) ≤ S (editDistance xs ys)).
Proof.
  remember (length xs + length ys) as n eqn:Hn.
  revert xs ys Hn. induction (lt_wf n) as [n _ IH]. intros xs ys ->.
  split.
  - intros a. destruct ys as [|b ys'].
    + rewrite !editDistance_nil_r. simpl. lia.
    + destruct (IH (length xs + length ys') ltac:(simpl; lia) xs ys' eq_refl)
        as [H1 H2].
      destruct (decide (a = b)) as [->|Hne].
      * rewrite editDistance_cons_eq. specialize (H2 b). lia.
      * rewrite editDistance_cons_ne by done.
        specialize (H1 a). specialize (H2 b). lia.
  - intros b. destruct xs as [|a xs'].
    + simpl. lia.
    + destruct (IH (length xs' + length ys) ltac:(simpl; lia) xs' ys eq_refl)
        as [H1 H2].
      destruct (decide (a = b)) as [->|Hne].
      * rewrite editDistance_cons_eq. specialize (H1 b). lia.
      * rewrite editDistance_cons_ne by done.
        specialize (H1 a). specialize (H2 b). lia.
Qed.

(** Along a diagonal of the edit graph the remaining distance never grows. *)
Lemma editDistance_diagonal a b xs ys :
  editDistance xs ys ≤ editDistance (a :: xs) (b :: ys).
Proof.
  destruct (decide (a = b)) as [->|Hne].
  - by rewrite editDistance_cons_eq.
  - rewrite editDistance_cons_ne by done.
    destruct (editDistance_step xs ys) as [H1 H2].
    specialize (H1 a). specialize (H2 b). lia.
Qed.

Lemma editDistance_refl xs : editDistance xs xs = 0.
Proof. induction xs as [|a xs IH]; [done|]. by rewrite editDistance_cons_eq. Qed.

Lemma editDistance_zero xs ys : editDistance xs ys = 0 → xs = ys.
Proof.
  revert ys. induction xs as [|a xs IH]; intros [|b ys] Hd; try done.
  destruct (decide (a = b)) as [->|Hne].
  - rewrite editDistance_cons_eq in Hd. f_equal. by apply IH.
  - by rewrite editDistance_cons_ne in Hd.
Qed.

Lemma editDistance_app_same v xs ys :
  editDistance (v ++ xs) (v ++ ys) = editDistance xs ys.
Proof. induction v as [|a v IH]; [done|]. simpl app. by rewrite editDistance_cons_eq. Qed.

Lemma editDistance_app_l v xs ys :
  editDistance (v ++ xs) ys ≤ length v + editDistance xs ys.
Proof.
  induction v as [|a v IH]; [done|]. simpl app.
  destruct (editDistance_step (v ++ xs) ys) as [H1 _]. specialize (H1 a).
  simpl length. lia.
Qed.

Lemma editDistance_app_r v xs ys :
  editDistance xs (v ++ ys) ≤ length v + editDistance xs ys.
Proof.
  induction v as [|b v IH]; [done|]. simpl app.
  destruct (editDistance_step xs (v ++ ys)) as [_ H2]. specialize (H2 b).
  simpl length. lia.
Qed.

Lemma editDistance_le_length xs ys :
  editDistance xs ys ≤ length xs + length ys.
Proof.
  pose proof (editDistance_app_l xs [] ys) as H1. rewrite app_nil_r in H1.
  simpl in H1. lia.
Qed.

End DistanceFacts.

(** ** Scripts with values *)

Section ScriptFacts.
Context {A : Type} `{EqDecision A}.
Implicit Types (c : component A) (r : list (component A)).

Lemma valuesOf_nil keep : valuesOf (A:=A) keep [] = Some [].
Proof. done. Qed.

Lemma valuesOf_cons keep c r :
  valuesOf keep (c :: r)
  = if keep c
    then match value c, valuesOf keep r with
         | Some v, Some vs => Some (v ++ vs)
         | _, _ => None
         end
    else valuesOf keep r.
Proof.
  unfold valuesOf. rewrite filter_cons.
  destruct (keep c) eqn:Hk.
  - rewrite decide_True by done. simpl.
    destruct (value c); [|done]. simpl.
    by destruct (mapM value _).
  - by rewrite decide_False by done.
Qed.

Lemma valueCost_cons c r :
  valueCost (c :: r)
  = ((if isAdded c || isRemoved c then length (default [] (value c)) else 0)
     + valueCost r)%nat.
Proof. done. Qed.

(** No valid script is cheaper than the reference distance. *)
Lemma validScript_cost old new r :
  validScript old new r → (editDistance old new ≤ valueCost r)%nat.
Proof.
  unfold validScript, oldValues, newValues.
  revert old new. induction r as [|c r IH]; intros old new [Ho Hn].
  - rewrite valuesOf_nil in Ho, Hn. simplify_eq. by rewrite editDistance_refl.
  - rewrite valuesOf_cons in Ho, Hn. rewrite valueCost_cons.
    destruct (isAdded c), (isRemoved c); simpl in *.
    + specialize (IH _ _ (conj Ho Hn)). lia.
    + destruct (value c) as [v|]; [|done].
      destruct (valuesOf _ r) as [vs|] eqn:Hvs in Hn; [|done].
      simplify_eq. specialize (IH _ _ (conj Ho Hvs)).
      pose proof (editDistance_app_r v old vs). simpl. lia.
    + destruct (value c) as [v|]; [|done].
      destruct (valuesOf _ r) as [vs|] eqn:Hvs in Ho; [|done].
      simplify_eq. specialize (IH _ _ (conj Hvs Hn)).
      pose proof (editDistance_app_l v vs new). simpl. lia.
    + destruct (value c) as [v|]; [|done].
      destruct (valuesOf _ r) as [vo|] eqn:Hvo in Ho; [|done].
      destruct (valuesOf _ r) as [vn|] eqn:Hvn in Hn; [|done].
      simplify_eq. rewrite editDistance_app_same.
      specialize (IH _ _ (conj Hvo Hvn)). lia.
Qed.

End ScriptFacts.

(** ** Moves and their replay *)

Section MoveFacts.
Context {A : Type} `{EqDecision A}.
Variables oldString newString : list A.
Implicit Types (c : component A) (cs : list (component A)) (ms : list move).
Local Open Scope nat_scope.

Local Abbreviation replay := (replay oldString newString).
Local Abbreviation remaining := (remaining oldString newString).
Local Abbreviation snakeEnd := (snakeEnd oldString newString).

Lemma moves_app cs1 cs2 : moves (cs1 ++ cs2) = moves cs1 ++ moves cs2.
Proof. apply bind_app. Qed.

Lemma moves_singleton c :
  moves [c] = replicate (Z.to_nat (default 0%Z (count c))) (moveOf c).
Proof. unfold moves. simpl. by rewrite app_nil_r. Qed.

Lemma replay_app ms1 ms2 x y :
  replay (ms1 ++ ms2) x y
  = match replay ms1 x y with
    | Some (x', y') => replay ms2 x' y'
    | None => None
    end.
Proof.
  revert x y. induction ms1 as [|m ms1 IH]; intros x y; [done|].
  destruct m; simpl.
  - destruct (newString !! x), (oldString !! y); try done.
    case_decide; [apply IH | done].
  - case_decide; [apply IH | done].
  - case_decide; [apply IH | done].
Qed.

Lemma replay_bounds ms x y x' y' :
  replay ms x y = Some (x', y') →
  x ≤ length newString → y ≤ length oldString →
  x ≤ x' ≤ length newString ∧ y ≤ y' ≤ length oldString.
Proof.
  revert x y. induction ms as [|m ms IH]; intros x y Hr Hx Hy.
  - simpl in Hr. simplify_eq. lia.
  - destruct m; simpl in Hr.
    + destruct (newString !! x) as [a|] eqn:Ha; [|done].
      destruct (oldString !! y) as [b|] eqn:Hb; [|done].
      case_decide; [|done].
      apply lookup_lt_Some in Ha, Hb.
      apply IH in Hr; lia.
    + case_decide; [|done]. apply IH in Hr; lia.
    + case_decide; [|done]. apply IH in Hr; lia.
Qed.

Lemma edits_app ms1 ms2 : edits (ms1 ++ ms2) = edits ms1 + edits ms2.
Proof. unfold edits. by rewrite filter_app, length_app. Qed.

Lemma edits_keep n : edits (replicate n Keep) = 0.
Proof. induction n as [|n IH]; [done|]. apply IH. Qed.

Lemma edits_single m : m ≠ Keep → edits [m] = 1.
Proof. intros Hm. unfold edits. by rewrite filter_cons, decide_True. Qed.

Lemma replicate_snoc {B} n (b : B) : replicate (S n) b = replicate n b ++ [b].
Proof. induction n as [|n IH]; [done|]. simpl in *. by rewrite <- IH. Qed.

(** A replayed script that reaches the end of both sequences costs at
    least the remaining distance. *)
Lemma replay_remaining ms x y :
  replay ms x y = Some (length newString, length oldString) →
  remaining x y ≤ edits ms.
Proof.
  unfold remaining.
  revert x y. induction ms as [|m ms IH]; intros x y Hr.
  - simpl in Hr. simplify_eq. rewrite !drop_all. done.
  - destruct m; simpl in Hr.
    + destruct (newString !! x) as [a|] eqn:Ha; [|done].
      destruct (oldString !! y) as [b|] eqn:Hb; [|done].
      case_decide as Hab; [|done]. subst b.
      rewrite (drop_S _ _ _ Ha), (drop_S _ _ _ Hb), editDistance_cons_eq.
      apply IH in Hr. change (Keep :: ms) with ([Keep] ++ ms).
      rewrite edits_app. lia.
    + case_decide as Hx; [|done].
      destruct (lookup_lt_is_Some_2 _ _ Hx) as [a Ha].
      rewrite (drop_S _ _ _ Ha). apply IH in Hr.
      destruct (editDistance_step (drop y oldString) (drop (S x) newString))
        as [_ H2]. specialize (H2 a).
      change (Ins :: ms) with ([Ins] ++ ms).
      rewrite edits_app, edits_single by done. lia.
    + case_decide as Hy; [|done].
      destruct (lookup_lt_is_Some_2 _ _ Hy) as [b Hb].
      rewrite (drop_S _ _ _ Hb). apply IH in Hr.
      destruct (editDistance_step (drop (S y) oldString) (drop x newString))
        as [H1 _]. specialize (H1 b).
      change (Del :: ms) with ([Del] ++ ms).
      rewrite edits_app, edits_single by done. lia.
Qed.

(** The remaining distance along a diagonal. *)
Lemma remaining_diagonal x y j :
  remaining (x + j) (y + j) ≤ remaining x y.
Proof.
  unfold remaining. induction j as [|j IH].
  - by rewrite !Nat.add_0_r.
  - etrans; [|apply IH].
    rewrite !Nat.add_succ_r.
    destruct (oldString !! (y + j)) as [b|] eqn:Hb.
    + destruct (newString !! (x + j)) as [a|] eqn:Ha.
      * rewrite (drop_S _ _ (y + j) Hb), (drop_S _ _ (x + j) Ha).
        apply editDistance_diagonal.
      * apply lookup_ge_None in Ha.
        rewrite !(drop_ge newString) by lia.
        rewrite !editDistance_nil_r, !length_drop. lia.
    + apply lookup_ge_None in Hb.
      rewrite !(drop_ge oldString) by lia. simpl.
      rewrite !length_drop. lia.
Qed.

(** Where a snake has ended short of the goal, an insertion or a deletion
    brings the goal one step closer. *)
Lemma remaining_move x y :
  snakeEnd x y →
  x < length newString ∨ y < length oldString →
  (x < length newString ∧ S (remaining (S x) y) = remaining x y)
  ∨ (y < length oldString ∧ S (remaining x (S y)) = remaining x y).
Proof.
  unfold remaining. intros Hend Hlt.
  destruct (newString !! x) as [a|] eqn:Ha;
    destruct (oldString !! y) as [b|] eqn:Hb.
  - pose proof (Hend a b Ha Hb) as Hne.
    pose proof (lookup_lt_Some _ _ _ Ha). pose proof (lookup_lt_Some _ _ _ Hb).
    rewrite (drop_S _ _ _ Ha), (drop_S _ _ _ Hb).
    rewrite editDistance_cons_ne by done.
    rewrite <- (drop_S _ _ _ Ha), <- (drop_S _ _ _ Hb).
    destruct (Nat.min_spec (editDistance (drop (S y) oldString) (drop x newString))
                (editDistance (drop y oldString) (drop (S x) newString)))
      as [[_ ->]|[_ ->]]; [right|left]; done.
  - left. pose proof (lookup_lt_Some _ _ _ Ha). apply lookup_ge_None in Hb.
    split; [done|]. rewrite !(drop_ge oldString) by lia. simpl.
    rewrite !length_drop. lia.
  - right. pose proof (lookup_lt_Some _ _ _ Hb). apply lookup_ge_None in Ha.
    split; [done|]. rewrite !(drop_ge newString) by lia.
    rewrite !editDistance_nil_r, !length_drop. lia.
  - apply lookup_ge_None in Ha, Hb. lia.
Qed.

End MoveFacts.

(** ** The helpers of the search *)

Section HelperFacts.
Context {A : Type} `{EqDecision A}.
Variables oldString newString : list A.
Implicit Types (c l : component A) (cs : list (component A)) (p : path A).

Local Abbreviation replay := (replay oldString newString).
Local Abbreviation snakeEnd := (snakeEnd oldString newString).
Local Abbreviation prefixFirst := (prefixFirst oldString newString).
Local Abbreviation scriptTo := (scriptTo oldString newString).

Lemma noAdjacent_snoc cs c :
  noAdjacent (cs ++ [c]) ↔
  noAdjacent cs ∧ (∀ l, last cs = Some l → ¬ sameKind l c).
Proof.
  induction cs as [|c1 cs IH]; [simpl; naive_solver|].
  destruct cs as [|c2 cs'].
  - simpl. split.
    + intros [Hn _]. split; [done|]. by intros l [= <-].
    + intros [_ Hl]. split; [|done]. by apply Hl.
  - change (noAdjacent ((c1 :: c2 :: cs') ++ [c]))
      with (¬ sameKind c1 c2 ∧ noAdjacent ((c2 :: cs') ++ [c])).
    change (noAdjacent (c1 :: c2 :: cs'))
      with (¬ sameKind c1 c2 ∧ noAdjacent (c2 :: cs')).
    change (last (c1 :: c2 :: cs')) with (last (c2 :: cs')).
    rewrite IH. tauto.
Qed.

Lemma pushComponent_nil a r :
  pushComponent (A:=A) [] a r = [Component (Some 1) a r None].
Proof. done. Qed.

Lemma pushComponent_snoc cs l a r :
  pushComponent (cs ++ [l]) a r
  = if bool_decide (added l = a) && bool_decide (removed l = r)
    then cs ++ [Component (plus (count l) (Some 1)) a r None]
    else cs ++ [l; Component (Some 1) a r None].
Proof.
  unfold pushComponent. rewrite last_snoc.
  destruct (_ && _).
  - rewrite length_app. simpl.
    replace (length cs + 1 - 1)%nat with (length cs + 0)%nat by lia.
    by rewrite insert_app_r.
  - by rewrite <- app_assoc.
Qed.

Lemma moveOf_flags c a r m :
  editFlags a r m → added c = a → removed c = r → moveOf c = m.
Proof.
  unfold moveOf, isRemoved, isAdded.
  intros [(-> & -> & ->)|(-> & -> & ->)] -> ->; done.
Qed.

Lemma pushComponent_spec cs a r m :
  editFlags a r m →
  Forall searchComponent cs → noAdjacent cs → prefixFirst cs →
  Forall searchComponent (pushComponent cs a r)
  ∧ noAdjacent (pushComponent cs a r)
  ∧ prefixFirst (pushComponent cs a r)
  ∧ moves (pushComponent cs a r) = moves cs ++ [m]
  ∧ (∃ l, last (pushComponent cs a r) = Some l ∧ added l = a ∧ removed l = r).
Proof.
  intros Hfl Hall Hadj Hpre.
  assert (searchComponent (Component (A:=A) (Some 1) a r None)) as Hnew.
  { split; [exists 1; done|]. split; [done|].
    destruct Hfl as [(-> & -> & _)|(-> & -> & _)]; simpl; tauto. }
  destruct cs as [|l cs _] using rev_ind.
  - rewrite pushComponent_nil. split_and!.
    + by apply Forall_singleton.
    + done.
    + intros Hne. by specialize (Hpre Hne).
    + rewrite moves_singleton. simpl. f_equal. by eapply moveOf_flags.
    + by eexists.
  - rewrite pushComponent_snoc.
    apply Forall_app in Hall as [Hall Hl]. rewrite Forall_singleton in Hl.
    apply noAdjacent_snoc in Hadj as [Hadj Hlast].
    destruct (bool_decide (added l = a) && bool_decide (removed l = r)) eqn:Hsame.
    + apply andb_true_iff in Hsame as [Ha Hr].
      apply bool_decide_eq_true in Ha, Hr.
      destruct Hl as ((n & Hn & Hn1) & Hv & Hk).
      split_and!.
      * apply Forall_app. split; [done|]. apply Forall_singleton.
        split; [exists (n + 1); rewrite Hn; split; [done|lia]|].
        destruct Hnew as (_ & ? & ?). done.
      * apply noAdjacent_snoc. split; [done|].
        intros l' Hl' Hs. apply (Hlast l' Hl').
        destruct Hs as [Hs1 Hs2]. simpl in *. split; congruence.
      * intros Hne. specialize (Hpre Hne).
        destruct cs as [|c0 cs']; [|done].
        simpl in Hpre. simplify_eq. simpl in *.
        destruct Hfl as [(? & _)|(_ & ? & _)]; congruence.
      * rewrite !moves_app, !moves_singleton, Hn. simpl.
        rewrite <- app_assoc. f_equal.
        rewrite (moveOf_flags l a r m), (moveOf_flags _ a r m) by done.
        replace (Z.to_nat (n + 1)) with (S (Z.to_nat n)) by lia.
        apply replicate_snoc.
      * eexists. rewrite last_snoc. done.
    + assert (¬ sameKind l (Component (Some 1) a r None)) as Hdiff.
      { intros [H1 H2]. simpl in *.
        rewrite !bool_decide_eq_true_2 in Hsame by done. done. }
      replace (cs ++ [l; Component (Some 1) a r None])
        with ((cs ++ [l]) ++ [Component (Some 1) a r None])
        by (by rewrite <- app_assoc).
      split_and!.
      * apply Forall_app. split; [|by apply Forall_singleton].
        apply Forall_app. split; [done|by apply Forall_singleton].
      * apply noAdjacent_snoc. split.
        -- apply noAdjacent_snoc. done.
        -- intros l'. rewrite last_snoc. by intros [= <-].
      * intros Hne. specialize (Hpre Hne).
        destruct cs; done.
      * rewrite (moves_app (cs ++ [l])). f_equal.
        rewrite moves_singleton. simpl. f_equal. by eapply moveOf_flags.
      * eexists. rewrite last_snoc. done.
Qed.

End HelperFacts.

(** ** Snakes *)

Section SnakeFacts.
Context {A : Type} `{EqDecision A}.
Variables oldString newString : list A.
Implicit Types (l : component A) (cs : list (component A)) (p : path A).

Local Abbreviation replay := (replay oldString newString).
Local Abbreviation snakeEnd := (snakeEnd oldString newString).
Local Abbreviation prefixFirst := (prefixFirst oldString newString).
Local Abbreviation scriptTo := (scriptTo oldString newString).
Local Abbreviation newLen := (newLen newString).
Local Abbreviation oldLen := (oldLen oldString).

Lemma commonPrefix_nil_r (xs : list A) : commonPrefix xs [] = [].
Proof. by destruct xs. Qed.

Lemma charAt_lookup (s : list A) i : 0 ≤ i → charAt s i = s !! Z.to_nat i.
Proof. intros Hi. unfold charAt. by rewrite bool_decide_eq_true_2. Qed.

(** The loop of [extractCommon] walks the longest run of matches. *)
Lemma extractLoop_spec n np op cc :
  -1 ≤ np → -1 ≤ op → n = Z.to_nat (newLen - (np + 1)) →
  ∃ c : nat,
    extractLoop oldString newString n np op cc
    = (np + Z.of_nat c, op + Z.of_nat c, cc + Z.of_nat c)
    ∧ replay (replicate c Keep) (Z.to_nat (np + 1)) (Z.to_nat (op + 1))
      = Some (Z.to_nat (np + 1) + c, Z.to_nat (op + 1) + c)%nat
    ∧ snakeEnd (Z.to_nat (np + 1) + c) (Z.to_nat (op + 1) + c)
    ∧ c = length (commonPrefix (drop (Z.to_nat (op + 1)) oldString)
                               (drop (Z.to_nat (np + 1)) newString)).
Proof.
  revert np op cc. induction n as [|n IH]; intros np op cc Hnp Hop Hn.
  - exists 0%nat. unfold newLen in Hn.
    rewrite !Nat.add_0_r, !Z.add_0_r. split_and!; [done..| |].
    + intros a b Ha. apply lookup_lt_Some in Ha. lia.
    + rewrite (drop_ge newString) by lia. by rewrite commonPrefix_nil_r.
  - simpl.
    destruct (bool_decide (np + 1 < newLen)) eqn:H1;
      [apply bool_decide_eq_true in H1|apply bool_decide_eq_false in H1;
                                       unfold newLen in *; lia].
    rewrite !charAt_lookup by lia.
    destruct (newString !! Z.to_nat (np + 1)) as [a|] eqn:Ha;
      [|apply lookup_ge_None in Ha; unfold newLen in *; lia].
    destruct (bool_decide (op + 1 < oldLen)) eqn:H2; simpl.
    + apply bool_decide_eq_true in H2.
      destruct (oldString !! Z.to_nat (op + 1)) as [b|] eqn:Hb;
        [|apply lookup_ge_None in Hb; unfold oldLen in *; lia].
      destruct (bool_decide (Some a = Some b)) eqn:H3.
      * apply bool_decide_eq_true in H3. simplify_eq.
        destruct (IH (np + 1) (op + 1) (cc + 1)) as (c & Hc & Hr & He & Hl);
          [lia..|].
        replace (Z.to_nat (np + 1 + 1)) with (S (Z.to_nat (np + 1))) in * by lia.
        replace (Z.to_nat (op + 1 + 1)) with (S (Z.to_nat (op + 1))) in * by lia.
        exists (S c). split_and!.
        -- rewrite Hc. f_equal; [f_equal|]; lia.
        -- simpl. rewrite Ha, Hb, decide_True by done. rewrite Hr.
           f_equal. f_equal; lia.
        -- by rewrite !Nat.add_succ_r.
        -- rewrite (drop_S _ _ _ Ha), (drop_S _ _ _ Hb). simpl.
           rewrite decide_True by done. simpl. by f_equal.
      * apply bool_decide_eq_false in H3.
        exists 0%nat. rewrite !Nat.add_0_r, !Z.add_0_r. split_and!; [done..| |].
        -- intros a' b' Ha' Hb'. congruence.
        -- rewrite (drop_S _ _ _ Ha), (drop_S _ _ _ Hb). simpl.
           rewrite decide_False; [done|congruence].
    + apply bool_decide_eq_false in H2.
      exists 0%nat. rewrite !Nat.add_0_r, !Z.add_0_r. split_and!; [done..| |].
      * intros a' b' _ Hb'. apply lookup_lt_Some in Hb'.
        unfold oldLen in *. lia.
      * rewrite (drop_ge oldString) by (unfold oldLen in *; lia).
        done.
Qed.

Lemma extractCommon_spec p k :
  -1 ≤ newPos p → -1 ≤ newPos p - k →
  ∃ c : nat,
    extractCommon oldString newString p k
    = (Path (newPos p + Z.of_nat c) (components p ++ snake c),
       newPos p + Z.of_nat c - k)
    ∧ replay (replicate c Keep) (consumedNew p) (consumedOld p k)
      = Some (consumedNew p + c, consumedOld p k + c)%nat
    ∧ snakeEnd (consumedNew p + c) (consumedOld p k + c)
    ∧ c = length (commonPrefix (drop (consumedOld p k) oldString)
                               (drop (consumedNew p) newString)).
Proof.
  intros Hnp Hop.
  destruct (extractLoop_spec (Z.to_nat (newLen - (newPos p + 1)))
              (newPos p) (newPos p - k) 0 Hnp Hop eq_refl)
    as (c & Hc & Hr & He & Hl).
  exists c. unfold extractCommon. rewrite Hc. split_and!; try done.
  f_equal; [|lia]. f_equal. unfold snake.
  rewrite Z.add_0_l.
  case_bool_decide; case_decide; try lia; [done | by rewrite app_nil_r].
Qed.

Lemma moves_snake c : moves (snake (A:=A) c) = replicate c Keep.
Proof.
  unfold snake. case_decide as Hc; [by subst|].
  rewrite moves_singleton. simpl. by rewrite Nat2Z.id.
Qed.

(** Appending a snake to a script that is empty or ends with an edit. *)
Lemma scriptTo_snake d x y c cs :
  scriptTo d x y cs →
  (cs = [] ∨ ∃ l, last cs = Some l ∧ ¬ isCommon l) →
  replay (replicate c Keep) x y = Some (x + c, y + c)%nat →
  c = length (commonPrefix (drop y oldString) (drop x newString)) →
  scriptTo d (x + c) (y + c) (cs ++ snake c).
Proof.
  intros (Hall & Hadj & Hpre & Hre & Hed) Hlast Hk Hc.
  unfold scriptTo.
  rewrite moves_app, moves_snake, replay_app, Hre, edits_app, edits_keep.
  split_and!; [| | |done|lia].
  - apply Forall_app. split; [done|].
    unfold snake. case_decide; [done|]. apply Forall_singleton.
    split; [eexists; split; [done|lia]|]. simpl. tauto.
  - unfold snake. case_decide; [by rewrite app_nil_r|].
    apply noAdjacent_snoc. split; [done|].
    intros l Hl [Hs1 Hs2]. simpl in *.
    destruct Hlast as [->|(l' & Hl' & Hcm)]; [done|].
    simplify_eq. apply Hcm. unfold isCommon, isAdded, isRemoved.
    by rewrite Hs1, Hs2.
  - intros Hne. destruct cs as [|c0 cs'].
    + simpl in Hre. simplify_eq. rewrite !drop_0 in *.
      unfold snake. rewrite decide_False; [done|].
      destruct (commonPrefix oldString newString); done.
    + by specialize (Hpre Hne).
Qed.

End SnakeFacts.

(** ** One diagonal *)

Section DiagonalFacts.
Context {A : Type} `{EqDecision A}.
Variables oldString newString : list A.
Implicit Types (l : component A) (cs : list (component A)) (p a r : path A).
Implicit Types (bp : gmap Z (path A)) (d k j : Z).

Local Abbreviation replay := (replay oldString newString).
Local Abbreviation snakeEnd := (snakeEnd oldString newString).
Local Abbreviation scriptTo := (scriptTo oldString newString).
Local Abbreviation pathOk := (pathOk oldString newString).
Local Abbreviation found := (found oldString newString).

Lemma last_edit cs (fa fr : option bool) m :
  editFlags fa fr m →
  (∃ l, last cs = Some l ∧ added l = fa ∧ removed l = fr) →
  ∃ l, last cs = Some l ∧ ¬ isCommon l.
Proof.
  intros Hfl (l & Hl & Ha & Hr). exists l. split; [done|].
  unfold isCommon, isAdded, isRemoved. rewrite Ha, Hr.
  destruct Hfl as [(-> & -> & _)|(-> & -> & _)]; simpl; tauto.
Qed.

(** The delete move from the path on diagonal [k+1]. *)
Lemma base_remove d k r :
  pathOk (d - 1) (k + 1) r →
  (consumedOld r (k + 1) < length oldString)%nat →
  let base := Path (newPos r) (pushComponent (components r) None (Some true)) in
  -1 ≤ newPos base ∧ -1 ≤ newPos base - k ∧ (k + d) mod 2 = 0
  ∧ scriptTo d (consumedNew base) (consumedOld base k) (components base)
  ∧ (∃ l, last (components base) = Some l ∧ ¬ isCommon l)
  ∧ consumedNew base = consumedNew r.
Proof.
  intros (Hn & Ho & Hpar & (Hall & Hadj & Hpre & Hre & Hed) & _ & _) Hlt base.
  unfold consumedNew, consumedOld in *. simpl.
  destruct (pushComponent_spec oldString newString (components r) None (Some true) Del)
    as (Hall' & Hadj' & Hpre' & Hmv & Hlast); [by right|done..|].
  split_and!; [lia..| |by eapply last_edit; [right|]|done].
  split_and!; [done..| |].
  - rewrite Hmv, replay_app, Hre. simpl. rewrite decide_True by done.
    do 2 f_equal. lia.
  - rewrite Hmv, edits_app, edits_single by done. lia.
Qed.

(** The insert move from the path on diagonal [k-1]. *)
Lemma base_add d k a :
  pathOk (d - 1) (k - 1) a →
  (consumedNew a < length newString)%nat →
  let base := Path (newPos a + 1) (pushComponent (components a) (Some true) None) in
  -1 ≤ newPos base ∧ -1 ≤ newPos base - k ∧ (k + d) mod 2 = 0
  ∧ scriptTo d (consumedNew base) (consumedOld base k) (components base)
  ∧ (∃ l, last (components base) = Some l ∧ ¬ isCommon l)
  ∧ consumedNew base = S (consumedNew a).
Proof.
  intros (Hn & Ho & Hpar & (Hall & Hadj & Hpre & Hre & Hed) & _ & _) Hlt base.
  unfold consumedNew, consumedOld in *. simpl.
  destruct (pushComponent_spec oldString newString (components a) (Some true) None Ins)
    as (Hall' & Hadj' & Hpre' & Hmv & Hlast); [by left|done..|].
  split_and!; [lia..| |by eapply last_edit; [left|]|lia].
  split_and!; [done..| |].
  - rewrite Hmv, replay_app, Hre. simpl. rewrite decide_True by done.
    f_equal. f_equal; lia.
  - rewrite Hmv, edits_app, edits_single by done. lia.
Qed.

Lemma canAdd_true a :
  -1 ≤ newPos a →
  canAdd newString (Some a) = true ↔ (consumedNew a < length newString)%nat.
Proof.
  intros Hn. unfold canAdd, consumedNew, newLen.
  rewrite bool_decide_eq_true. lia.
Qed.

Lemma canRemove_true k r :
  -1 ≤ newPos r - (k + 1) →
  canRemove oldString (Some r) (newPos r - k) = true
  ↔ (consumedOld r (k + 1) < length oldString)%nat.
Proof.
  intros Hn. unfold canRemove, consumedOld, oldLen.
  rewrite andb_true_iff, !bool_decide_eq_true. lia.
Qed.

(** The path chosen on lines 1256-1263 is a sound one-edit extension that is
    at least as far as each move that was possible. *)
Lemma selectBase_spec d k ao ro :
  (∀ a, ao = Some a → pathOk (d - 1) (k - 1) a) →
  (∀ r, ro = Some r → pathOk (d - 1) (k + 1) r) →
  let oldPos := (match ro with Some r => newPos r | None => 0 end) - k in
  negb (canAdd newString ao) && negb (canRemove oldString ro oldPos) = false →
  ∃ base,
    selectBase oldString newString ao ro oldPos = Some base
    ∧ -1 ≤ newPos base ∧ -1 ≤ newPos base - k ∧ (k + d) mod 2 = 0
    ∧ scriptTo d (consumedNew base) (consumedOld base k) (components base)
    ∧ (∃ l, last (components base) = Some l ∧ ¬ isCommon l)
    ∧ (∀ a, ao = Some a → (consumedNew a < length newString)%nat →
            (S (consumedNew a) ≤ consumedNew base)%nat)
    ∧ (∀ r, ro = Some r → (consumedOld r (k + 1) < length oldString)%nat →
            (consumedNew r ≤ consumedNew base)%nat).
Proof.
  intros Ha Hr oldPos Hcan. unfold selectBase, branchFromRemove.
  destruct (canAdd newString ao) eqn:Hadd; simpl in *.
  - destruct ao as [a|]; [|done].
    pose proof (Ha a eq_refl) as Hoka.
    assert (-1 ≤ newPos a) as Hna by apply Hoka.
    apply canAdd_true in Hadd; [|done].
    destruct (base_add d k a Hoka Hadd) as (B1 & B2 & B3 & B4 & B5 & B6).
    destruct (canRemove oldString ro oldPos) eqn:Hrem.
    + destruct ro as [r|]; [|done]. subst oldPos. simpl.
      pose proof (Hr r eq_refl) as Hokr.
      assert (-1 ≤ newPos r ∧ -1 ≤ newPos r - (k + 1)) as [Hnr Hor]
        by (split; apply Hokr).
      apply canRemove_true in Hrem; [|done].
      destruct (base_remove d k r Hokr Hrem) as (R1 & R2 & R3 & R4 & R5 & R6).
      case_bool_decide as Hlt.
      * eexists. split; [done|]. split_and!; try done.
        -- intros ? [= <-] _. rewrite R6. unfold consumedNew. lia.
        -- intros ? [= <-] _. by rewrite R6.
      * eexists. split; [done|]. split_and!; try done.
        -- intros ? [= <-] _. by rewrite B6.
        -- intros ? [= <-] _. rewrite B6. unfold consumedNew. lia.
    + eexists. split; [done|]. split_and!; try done.
      * intros ? [= <-] _. by rewrite B6.
      * intros r -> Hlt. subst oldPos.
        pose proof (Hr r eq_refl) as Hokr.
        apply canRemove_true in Hlt; [congruence|apply Hokr].
  - destruct ro as [r|]; [|done]. subst oldPos.
    pose proof (Hr r eq_refl) as Hokr.
    assert (-1 ≤ newPos r ∧ -1 ≤ newPos r - (k + 1)) as [Hnr Hor]
      by (split; apply Hokr).
    apply negb_false_iff in Hcan.
    apply canRemove_true in Hcan; [|done].
    destruct (base_remove d k r Hokr Hcan) as (R1 & R2 & R3 & R4 & R5 & R6).
    eexists. split; [done|]. split_and!; try done.
    + intros a -> Hlt.
      pose proof (Ha a eq_refl) as Hoka.
      apply canAdd_true in Hlt; [congruence|apply Hoka].
    + intros ? [= <-] _. by rewrite R6.
Qed.

(** One pass of the loop body: it returns a complete script, or updates
    diagonals [k-1] and [k] only, leaving on [k] a sound path that is at
    least as far as each possible move. *)
Lemma execDiagonal_spec d k bp :
  (∀ a, bp !! (k - 1) = Some a → pathOk (d - 1) (k - 1) a) →
  (∀ r, bp !! (k + 1) = Some r → pathOk (d - 1) (k + 1) r) →
  match execDiagonal oldString newString bp k with
  | Return s => found d s
  | Continue bp' =>
      (∀ j, j ≠ k → j ≠ k - 1 → bp' !! j = bp !! j)
      ∧ bp' !! (k - 1) = None
      ∧ (∀ p, bp' !! k = Some p → pathOk d k p)
      ∧ (∀ a, bp !! (k - 1) = Some a → (consumedNew a < length newString)%nat →
              ∃ p, bp' !! k = Some p ∧ (S (consumedNew a) ≤ consumedNew p)%nat)
      ∧ (∀ r, bp !! (k + 1) = Some r → (consumedOld r (k + 1) < length oldString)%nat →
              ∃ p, bp' !! k = Some p ∧ (consumedNew r ≤ consumedNew p)%nat)
  | Throw => False
  end.
Proof.
  intros Ha Hr. unfold execDiagonal.
  set (ao := bp !! (k - 1)) in *. set (ro := bp !! (k + 1)) in *.
  set (oldPos := (match ro with Some r => newPos r | None => 0 end) - k).
  set (bp1 := match ao with Some _ => delete (k - 1) bp | None => bp end).
  assert (bp1 !! (k - 1) = None) as Hbp1.
  { unfold bp1. destruct ao eqn:Hao; [apply lookup_delete_eq|done]. }
  assert (∀ j, j ≠ k - 1 → bp1 !! j = bp !! j) as Hbp1'.
  { intros j Hj. unfold bp1. destruct ao; [by apply lookup_delete_ne|done]. }
  destruct (negb (canAdd newString ao) && negb (canRemove oldString ro oldPos))
    eqn:Hcan.
  - apply andb_true_iff in Hcan as [Hadd Hrem].
    apply negb_true_iff in Hadd, Hrem.
    split_and!.
    + intros j Hj Hj'. rewrite lookup_delete_ne by done. by apply Hbp1'.
    + rewrite lookup_delete_ne by lia. done.
    + intros p. by rewrite lookup_delete_eq.
    + intros a Hao Hlt. rewrite Hao in Hadd.
      apply canAdd_true in Hlt; [congruence|apply (Ha a Hao)].
    + intros r Hro Hlt. unfold oldPos in Hrem. rewrite Hro in Hrem.
      apply canRemove_true in Hlt; [congruence|apply (Hr r Hro)].
  - subst oldPos.
    destruct (selectBase_spec d k ao ro Ha Hr Hcan)
      as (base & -> & Hn & Ho & Hpar & Hsc & Hlast & Hfa & Hfr).
    destruct (extractCommon_spec oldString newString base k Hn Ho)
      as (c & -> & Hre & Hend & Hc).
    pose proof (scriptTo_snake _ _ _ _ _ c _ Hsc (or_intror Hlast) Hre Hc) as Hsc'.
    assert (replay (moves (components base ++ snake c)) 0 0
            = Some (consumedNew base + c, consumedOld base k + c)%nat) as Hpos
      by apply Hsc'.
    apply replay_bounds in Hpos as [Hx Hy]; [|lia..].
    set (p := Path (newPos base + Z.of_nat c) (components base ++ snake c)).
    assert (consumedNew p = (consumedNew base + c)%nat) as Hcn
      by (unfold consumedNew; simpl; lia).
    assert (consumedOld p k = (consumedOld base k + c)%nat) as Hco
      by (unfold consumedOld; simpl; lia).
    rewrite <- Hcn in Hsc', Hend, Hx. rewrite <- Hco in Hsc', Hend, Hy.
    destruct (bool_decide (newLen newString ≤ newPos p + 1)
              && bool_decide (oldLen oldString ≤ newPos base + Z.of_nat c - k + 1))
      eqn:Hdone.
    + apply andb_true_iff in Hdone as [H1 H2].
      apply bool_decide_eq_true in H1, H2. unfold newLen, oldLen in *.
      exists (components p). split; [done|].
      replace (length newString) with (consumedNew p)
        by (unfold consumedNew in *; simpl in *; lia).
      replace (length oldString) with (consumedOld p k)
        by (unfold consumedOld in *; simpl in *; lia).
      done.
    + assert (pathOk d k p) as Hok.
      { split_and!; try done; [simpl; lia..|].
        apply andb_false_iff in Hdone.
        rewrite !bool_decide_eq_false in Hdone.
        unfold newLen, oldLen, consumedNew, consumedOld in *. simpl in *. lia. }
      split_and!.
      * intros j Hj Hj'. rewrite lookup_insert_ne by done. by apply Hbp1'.
      * rewrite lookup_insert_ne by lia. done.
      * intros p'. rewrite lookup_insert_eq. by intros [= <-].
      * intros a Hao Hlt. exists p. rewrite lookup_insert_eq. split; [done|].
        specialize (Hfa a Hao Hlt). lia.
      * intros r Hro Hlt. exists p. rewrite lookup_insert_eq. split; [done|].
        specialize (Hfr r Hro Hlt). lia.
Qed.

End DiagonalFacts.

(** ** One pass over the diagonals *)

Section PassFacts.
Context {A : Type} `{EqDecision A}.
Variables oldString newString : list A.
Implicit Types (p a r : path A) (bp : gmap Z (path A)) (d k j : Z).

Local Abbreviation pathOk := (pathOk oldString newString).
Local Abbreviation passOk := (passOk oldString newString).
Local Abbreviation found := (found oldString newString).
Local Abbreviation covered := (covered oldString newString).
Local Abbreviation midPass := (midPass oldString newString).
Local Abbreviation onShortest := (onShortest oldString newString).
Local Abbreviation remaining := (remaining oldString newString).

Lemma midPass_start d bp0 : passOk (d - 1) bp0 → midPass d (- d) bp0 bp0.
Proof.
  intros Hp. split_and!; [done| |split].
  - intros j p Hj Hl. destruct (Hp j p Hl) as [_ ?]. lia.
  - intros j a Hl Hj. destruct (Hp j a Hl) as [_ ?]. lia.
  - intros j r Hl Hj. destruct (Hp j r Hl) as [_ ?]. lia.
Qed.

Lemma midPass_end d bp0 bp :
  passOk (d - 1) bp0 → midPass d (d + 2) bp0 bp →
  passOk d bp ∧ covered (d + 2) bp0 bp.
Proof.
  intros Hp (Hsame & Hnew & Hcov). split; [|done].
  intros j p Hl. destruct (decide (j < d + 1)) as [Hj|Hj].
  - destruct (Hnew j p) as [? ?]; [lia|done|]. split; [done|lia].
  - rewrite Hsame in Hl by lia. destruct (Hp j p Hl) as [_ ?]. lia.
Qed.

Lemma midPass_step d k bp0 bp bp' :
  passOk (d - 1) bp0 → (k + d) mod 2 = 0 → - d ≤ k →
  midPass d k bp0 bp →
  (∀ j, j ≠ k → j ≠ k - 1 → bp' !! j = bp !! j) →
  bp' !! (k - 1) = None →
  (∀ p, bp' !! k = Some p → pathOk d k p) →
  (∀ a, bp !! (k - 1) = Some a → (consumedNew a < length newString)%nat →
        ∃ p, bp' !! k = Some p ∧ (S (consumedNew a) ≤ consumedNew p)%nat) →
  (∀ r, bp !! (k + 1) = Some r → (consumedOld r (k + 1) < length oldString)%nat →
        ∃ p, bp' !! k = Some p ∧ (consumedNew r ≤ consumedNew p)%nat) →
  midPass d (k + 2) bp0 bp'.
Proof.
  intros Hp Hpar Hk (Hsame & Hnew & Hca & Hcr) Hoth Hclr Hset Hpa Hpr.
  assert (∀ j p, bp0 !! j = Some p → (j + d - 1) mod 2 = 0) as Hpar0.
  { intros j p Hl. destruct (Hp j p Hl) as [(_ & _ & ? & _) _].
    replace (j + d - 1) with (j + (d - 1)) by lia. done. }
  split_and!; [| |split].
  - intros j Hj. rewrite Hoth by lia. apply Hsame. lia.
  - intros j p Hj Hl. destruct (decide (j = k)) as [->|Hjk].
    + split; [by apply Hset|done].
    + destruct (decide (j = k - 1)) as [->|Hjk']; [congruence|].
      rewrite Hoth in Hl by done. apply Hnew; [lia|done].
  - intros j a Hl Hj Hlt. pose proof (Hpar0 j a Hl) as Hpj.
    destruct (decide (j + 1 = k)) as [Hjk|Hjk].
    + subst k. replace (j + 1 - 1) with j in * by lia.
      apply Hpa; [|done]. rewrite Hsame by lia. done.
    + destruct (Hca j a Hl) as (p & Hp' & Hle); [lia|done|].
      exists p. split; [|done]. rewrite Hoth; [done|lia..].
  - intros j r Hl Hj Hlt. pose proof (Hpar0 j r Hl) as Hpj.
    destruct (decide (j - 1 = k)) as [Hjk|Hjk].
    + subst k. replace (j - 1 + 1) with j in * by lia.
      apply Hpr; [|done]. rewrite Hsame by lia. done.
    + destruct (Hcr j r Hl) as (p & Hp' & Hle); [lia|done|].
      exists p. split; [|done]. rewrite Hoth; [done|lia..].
Qed.

Lemma diagonalLoop_spec d bp0 n k bp :
  passOk (d - 1) bp0 → k = d + 2 - 2 * Z.of_nat n → - d ≤ k →
  midPass d k bp0 bp →
  match diagonalLoop oldString newString n k bp with
  | Return s => found d s
  | Continue bp' => midPass d (d + 2) bp0 bp'
  | Throw => False
  end.
Proof.
  intros Hp. revert k bp. induction n as [|n IH]; intros k bp Hk Hd Hmid.
  - simpl. replace (d + 2) with k by lia. done.
  - simpl.
    pose proof Hmid as (Hsame & _ & _).
    pose proof (execDiagonal_spec oldString newString d k bp) as Hstep.
    destruct (execDiagonal oldString newString bp k) as [s|bp'|].
    + apply Hstep.
      * intros a Hl. rewrite Hsame in Hl by lia. apply (Hp _ _ Hl).
      * intros r Hl. rewrite Hsame in Hl by lia. apply (Hp _ _ Hl).
    + destruct Hstep as (Hoth & Hclr & Hset & Hpa & Hpr).
      * intros a Hl. rewrite Hsame in Hl by lia. apply (Hp _ _ Hl).
      * intros r Hl. rewrite Hsame in Hl by lia. apply (Hp _ _ Hl).
      * apply IH; [lia..|].
        eapply midPass_step; try done. lia.
    + apply Hstep.
      * intros a Hl. rewrite Hsame in Hl by lia. apply (Hp _ _ Hl).
      * intros r Hl. rewrite Hsame in Hl by lia. apply (Hp _ _ Hl).
Qed.

(** A pass either returns a complete script with [d] edits or leaves sound
    paths that cover every move from the paths it started with. *)
Lemma execEditLength_spec d bp0 :
  1 ≤ d → passOk (d - 1) bp0 →
  match execEditLength oldString newString d bp0 with
  | Return s => found d s
  | Continue bp' => passOk d bp' ∧ covered (d + 2) bp0 bp'
  | Throw => False
  end.
Proof.
  intros Hd Hp. unfold execEditLength.
  pose proof (diagonalLoop_spec d bp0 (Z.to_nat (d + 1)) (- d) bp0 Hp
                ltac:(lia) ltac:(lia) (midPass_start d bp0 Hp)) as Hloop.
  destruct (diagonalLoop _ _ _ _ _); [done| |done].
  by apply midPass_end.
Qed.

(** A path on a shortest way to the goal is followed by one after the pass. *)
Lemma onShortest_step d bp0 bp :
  passOk (d - 1) bp0 → covered (d + 2) bp0 bp → passOk d bp →
  onShortest (d - 1) bp0 → onShortest d bp.
Proof.
  intros Hp0 [Hca Hcr] Hp (j & p & Hl & Hrem).
  destruct (Hp0 j p Hl) as [(Hn & Ho & _ & _ & Hend & Hgoal) Hj].
  destruct (remaining_move _ _ _ _ Hend Hgoal) as [[Hlt Hm]|[Hlt Hm]].
  - destruct (Hca j p Hl ltac:(lia) Hlt) as (p' & Hl' & Hle).
    exists (j + 1), p'. split; [done|].
    destruct (Hp _ _ Hl') as [(Hn' & Ho' & _) _].
    pose proof (remaining_diagonal oldString newString
                  (S (consumedNew p)) (consumedOld p j)
                  (consumedNew p' - S (consumedNew p))) as Hdiag.
    replace (S (consumedNew p) + (consumedNew p' - S (consumedNew p)))%nat
      with (consumedNew p') in Hdiag by lia.
    replace (consumedOld p j + (consumedNew p' - S (consumedNew p)))%nat
      with (consumedOld p' (j + 1)) in Hdiag
      by (unfold consumedNew, consumedOld in *; lia).
    lia.
  - destruct (Hcr j p Hl ltac:(lia) Hlt) as (p' & Hl' & Hle).
    exists (j - 1), p'. split; [done|].
    destruct (Hp _ _ Hl') as [(Hn' & Ho' & _) _].
    pose proof (remaining_diagonal oldString newString
                  (consumedNew p) (S (consumedOld p j))
                  (consumedNew p' - consumedNew p)) as Hdiag.
    replace (consumedNew p + (consumedNew p' - consumedNew p))%nat
      with (consumedNew p') in Hdiag by lia.
    replace (S (consumedOld p j) + (consumedNew p' - consumedNew p))%nat
      with (consumedOld p' (j - 1)) in Hdiag
      by (unfold consumedNew, consumedOld in *; lia).
    lia.
Qed.

(** While some stored path is short of the goal, the distance exceeds the
    edit length reached. *)
Lemma onShortest_lt d bp :
  passOk d bp → onShortest d bp → d < Z.of_nat (editDistance oldString newString).
Proof.
  intros Hp (j & p & Hl & Hrem).
  destruct (Hp j p Hl) as [(_ & _ & _ & _ & Hend & Hgoal) _].
  destruct (remaining_move _ _ _ _ Hend Hgoal) as [[_ Hm]|[_ Hm]]; lia.
Qed.

End PassFacts.

(** ** The whole search *)

Section SearchFacts.
Context {A : Type} `{EqDecision A}.
Variables oldString newString : list A.
Implicit Types (p : path A) (bp : gmap Z (path A)) (d k j : Z).

Local Abbreviation pathOk := (pathOk oldString newString).
Local Abbreviation passOk := (passOk oldString newString).
Local Abbreviation found := (found oldString newString).
Local Abbreviation onShortest := (onShortest oldString newString).
Local Abbreviation scriptTo := (scriptTo oldString newString).

(** A script the search returns has at least the reference distance. *)
Lemma found_lower d s :
  found d s → Z.of_nat (editDistance oldString newString) ≤ d.
Proof.
  intros (cs & _ & _ & _ & _ & Hre & Hed).
  apply replay_remaining in Hre. unfold remaining in Hre.
  rewrite !drop_0 in Hre. lia.
Qed.

(** The [while] loop returns a script at an edit length between the current
    one and the distance, after failing at every edit length before. *)
Lemma editLoop_spec n d bp :
  1 ≤ d → passOk (d - 1) bp → onShortest (d - 1) bp →
  Z.of_nat (editDistance oldString newString) ≤ Z.of_nat n + d - 1 →
  ∃ s d' bp',
    editLoop oldString newString n d bp = Script s
    ∧ found d' s
    ∧ d ≤ d' ≤ Z.of_nat (editDistance oldString newString)
    ∧ failedPasses oldString newString (Z.to_nat (d' - d)) d bp = Some bp'
    ∧ execEditLength oldString newString d' bp' = Return s.
Proof.
  revert d bp. induction n as [|n IH]; intros d bp Hd Hp Hs Hn.
  - pose proof (onShortest_lt _ _ _ _ Hp Hs). lia.
  - simpl.
    pose proof (onShortest_lt _ _ _ _ Hp Hs) as Hlt.
    pose proof (execEditLength_spec oldString newString d bp Hd Hp) as Hpass.
    destruct (execEditLength oldString newString d bp) as [s|bp'|] eqn:Hex;
      [| |done].
    + exists s, d, bp. rewrite Z.sub_diag. split_and!; try done; lia.
    + destruct Hpass as [Hp' Hcov].
      destruct (IH (d + 1) bp') as (s & d' & bp'' & Hs' & Hf & Hd' & Hfp & Hret);
        [lia| | |lia|].
      * by replace (d + 1 - 1) with d by lia.
      * replace (d + 1 - 1) with d by lia.
        by apply (onShortest_step _ _ d bp bp').
      * exists s, d', bp''. split_and!; try done; try lia.
        replace (Z.to_nat (d' - d)) with (S (Z.to_nat (d' - (d + 1)))) by lia.
        simpl. by rewrite Hex.
Qed.

(** The state after the seed snake from the origin. *)
Lemma seed_spec :
  oldString ≠ newString →
  ∃ c : nat,
    extractCommon oldString newString (Path (-1) []) 0
    = (Path (-1 + Z.of_nat c) (snake c), -1 + Z.of_nat c - 0)
    ∧ pathOk 0 0 (Path (-1 + Z.of_nat c) (snake c)).
Proof.
  intros Hne.
  destruct (extractCommon_spec oldString newString (Path (-1) []) 0)
    as (c & Hex & Hre & Hend & Hc); [simpl; lia..|].
  exists c. split; [done|].
  unfold consumedNew, consumedOld in *. simpl in *.
  change (Z.to_nat (-1 + 1)) with 0%nat in *.
  change (Z.to_nat (-1 - 0 + 1)) with 0%nat in *.
  simpl in *. rewrite !drop_0 in Hc.
  assert (scriptTo 0 c c (snake c)) as Hsc.
  { split_and!.
    - unfold snake. case_decide; [done|]. apply Forall_singleton.
      split; [eexists; split; [done|lia]|]. simpl. tauto.
    - unfold snake. by case_decide.
    - intros Hp. unfold snake. rewrite decide_False; [by rewrite Hc|].
      rewrite Hc. by destruct (commonPrefix oldString newString).
    - by rewrite moves_snake.
    - rewrite moves_snake, edits_keep. done. }
  pose proof (replay_bounds _ _ _ _ _ _ _ Hre ltac:(lia) ltac:(lia)) as [Hx Hy].
  unfold pathOk, consumedNew, consumedOld. simpl.
  replace (Z.to_nat (-1 + Z.of_nat c + 1)) with c by lia.
  replace (Z.to_nat (-1 + Z.of_nat c - 0 + 1)) with c by lia.
  split_and!; try done; try lia.
  - destruct (decide (c < length newString ∨ c < length oldString)%nat)
      as [|Hgoal]; [done|].
    exfalso. apply Hne.
    assert (c = length newString ∧ c = length oldString) as [Hcn Hco] by lia.
    assert (replay oldString newString (replicate c Keep) 0 0
            = Some (length newString, length oldString)) as Hre'
      by (rewrite Hre; congruence).
    apply replay_remaining in Hre'. rewrite edits_keep in Hre'.
    unfold remaining in Hre'. rewrite !drop_0 in Hre'.
    apply editDistance_zero. lia.
Qed.

(** For two different non-empty sequences the search returns a script, and
    it does so in the pass whose edit length is the reference distance. *)
Lemma diffChars_search :
  oldString ≠ newString → oldString ≠ [] → newString ≠ [] →
  ∃ s bp',
    diffChars oldString newString = Script s
    ∧ found (Z.of_nat (editDistance oldString newString)) s
    ∧ 1 ≤ Z.of_nat (editDistance oldString newString)
      ≤ Z.of_nat (length newString + length oldString)
    ∧ failedPasses oldString newString
        (Z.to_nat (Z.of_nat (editDistance oldString newString) - 1)) 1
        (seedBestPath oldString newString) = Some bp'
    ∧ execEditLength oldString newString
        (Z.of_nat (editDistance oldString newString)) bp' = Return s.
Proof.
  intros Hne Ho Hn. unfold diffChars, seedBestPath.
  rewrite !bool_decide_eq_false_2 by done.
  destruct seed_spec as (c & -> & Hok); [done|].
  pose proof Hok as (_ & _ & _ & _ & _ & Hgoal).
  unfold consumedNew, consumedOld in Hgoal. simpl in Hgoal.
  replace (bool_decide (newLen newString ≤ -1 + Z.of_nat c + 1)
           && bool_decide (oldLen oldString ≤ -1 + Z.of_nat c - 0 + 1))
    with false; cycle 1.
  { symmetry. apply andb_false_iff. rewrite !bool_decide_eq_false.
    unfold newLen, oldLen. lia. }
  cbn [fst].
  set (seed := Path (-1 + Z.of_nat c) (snake c)) in *.
  set (bp := <[0 := seed]> {[0 := Path (-1) []]} : gmap Z (path A)).
  assert (passOk (1 - 1) bp) as Hp.
  { intros j p. unfold bp. destruct (decide (j = 0)) as [->|Hj].
    - rewrite lookup_insert_eq. intros [= <-]. split; [done|lia].
    - rewrite lookup_insert_ne, lookup_singleton_ne by done. done. }
  assert (onShortest (1 - 1) bp) as Hs.
  { exists 0, seed. split; [apply lookup_insert_eq|].
    pose proof (remaining_diagonal oldString newString 0 0 c) as Hd.
    unfold remaining at 2 in Hd. rewrite !drop_0 in Hd.
    unfold consumedNew, consumedOld. simpl.
    replace (Z.to_nat (-1 + Z.of_nat c + 1)) with c by lia.
    replace (Z.to_nat (-1 + Z.of_nat c - 0 + 1)) with c by lia.
    simpl in Hd. lia. }
  pose proof (editDistance_le_length oldString newString) as Hle.
  destruct (editLoop_spec (Z.to_nat (newLen newString + oldLen oldString)) 1 bp)
    as (s & d' & bp' & Hs' & Hf & Hd' & Hfp & Hret);
    [lia|done|done|unfold newLen, oldLen; lia|].
  exists s, bp'. split; [done|].
  pose proof (found_lower _ _ Hf) as Hlow.
  replace (Z.of_nat (editDistance oldString newString)) with d' by lia.
  split_and!; try done; lia.
Qed.

End SearchFacts.

(** ** Filling in the values *)

Section ValueFacts.
Context {A : Type} `{EqDecision A}.
Variables oldString newString : list A.
Implicit Types (l : component A) (cs s : list (component A)).

Local Abbreviation replay := (replay oldString newString).
Local Abbreviation found := (found oldString newString).
Local Abbreviation buildValuesFrom := (buildValuesFrom oldString newString).

Lemma slice_take_drop (s : list A) (a n : Z) :
  0 ≤ a → 0 ≤ n → a + n ≤ Z.of_nat (length s) →
  slice s (Some a) (Some (a + n)) = take (Z.to_nat n) (drop (Z.to_nat a) s).
Proof.
  intros Ha Hn Hlen. unfold slice, sliceIndex.
  rewrite !bool_decide_eq_false_2 by lia.
  rewrite !Z.min_l by lia. f_equal. lia.
Qed.

Lemma replay_keeps c x y x' y' :
  replay (replicate c Keep) x y = Some (x', y') →
  x' = (x + c)%nat ∧ y' = (y + c)%nat
  ∧ take c (drop x newString) = take c (drop y oldString).
Proof.
  revert x y. induction c as [|c IH]; intros x y Hr; simpl in Hr.
  - simplify_eq. rewrite !Nat.add_0_r. done.
  - destruct (newString !! x) as [a|] eqn:Ha; [|done].
    destruct (oldString !! y) as [b|] eqn:Hb; [|done].
    case_decide; [|done]. subst b.
    apply IH in Hr as (-> & -> & Ht).
    rewrite (drop_S _ _ _ Ha), (drop_S _ _ _ Hb). simpl. rewrite Ht.
    split_and!; [lia..|done].
Qed.

Lemma replay_inserts c x y x' y' :
  replay (replicate c Ins) x y = Some (x', y') →
  x' = (x + c)%nat ∧ y' = y.
Proof.
  revert x. induction c as [|c IH]; intros x Hr; simpl in Hr.
  - simplify_eq. by rewrite Nat.add_0_r.
  - case_decide; [|done]. apply IH in Hr as (-> & ->). split; [lia|done].
Qed.

Lemma replay_deletes c x y x' y' :
  replay (replicate c Del) x y = Some (x', y') →
  x' = x ∧ y' = (y + c)%nat.
Proof.
  revert y. induction c as [|c IH]; intros y Hr; simpl in Hr.
  - simplify_eq. by rewrite Nat.add_0_r.
  - case_decide; [|done]. apply IH in Hr as (-> & ->). split; [done|lia].
Qed.

Lemma moves_cons l cs :
  moves (l :: cs)
  = replicate (Z.to_nat (default 0 (count l))) (moveOf l) ++ moves cs.
Proof. done. Qed.

Lemma edits_replicate c m :
  edits (replicate c m) = if decide (m = Keep) then 0%nat else c.
Proof.
  case_decide as Hm; [subst; apply edits_keep|].
  induction c as [|c IH]; [done|].
  change (replicate (S c) m) with ([m] ++ replicate c m).
  rewrite edits_app, edits_single, IH by done. done.
Qed.

Lemma editCount_cons l s :
  editCount (l :: s)
  = if isAdded l || isRemoved l then plus (count l) (editCount s)
    else editCount s.
Proof. done. Qed.

Lemma buildValuesFrom_cons l cs nx ny :
  buildValuesFrom (l :: cs) nx ny
  = if negb (truthy (removed l)) then
      Component (count l) (added l) (removed l)
                (Some (slice newString nx (plus nx (count l))))
      :: buildValuesFrom cs (plus nx (count l))
           (if negb (truthy (added l)) then plus ny (count l) else ny)
    else
      Component (count l) (added l) (removed l)
                (Some (slice oldString ny (plus ny (count l))))
      :: buildValuesFrom cs nx (plus ny (count l)).
Proof. done. Qed.

(** The values [buildValues] cuts out rebuild what is left of both
    sequences, and the counts of the edits add up to the number of single
    edits. *)
Lemma buildValuesFrom_spec cs x y :
  Forall searchComponent cs →
  replay (moves cs) x y = Some (length newString, length oldString) →
  (x ≤ length newString)%nat → (y ≤ length oldString)%nat →
  let s := buildValuesFrom cs (Some (Z.of_nat x)) (Some (Z.of_nat y)) in
  newValues s = Some (drop x newString)
  ∧ oldValues s = Some (drop y oldString)
  ∧ editCount s = Some (Z.of_nat (edits (moves cs)))
  ∧ valueCost s = edits (moves cs)
  ∧ Forall counted s.
Proof.
  assert (∀ (t : list A) (n : Z) (i : nat),
            1 ≤ n → (i + Z.to_nat n ≤ length t)%nat →
            counted (Component (Some n) None None
                               (Some (take (Z.to_nat n) (drop i t))))
            ∧ counted (Component (Some n) (Some true) None
                                 (Some (take (Z.to_nat n) (drop i t))))
            ∧ counted (Component (Some n) None (Some true)
                                 (Some (take (Z.to_nat n) (drop i t)))))
    as Hcounted.
  { clear. intros t n i Hn Hlen.
    assert (length (take (Z.to_nat n) (drop i t)) = Z.to_nat n) as Hl
      by (rewrite length_take, length_drop; lia).
    split_and!; (eexists; split; [done|]; simpl; rewrite Hl; split;
                 [f_equal; lia|intros Hnil; rewrite Hnil in Hl; simpl in Hl; lia]). }
  revert x y. induction cs as [|l cs IH]; intros x y Hall Hre Hx Hy.
  - simpl in *. simplify_eq. rewrite !drop_all. done.
  - apply Forall_cons in Hall as [((n & Hn & Hn1) & Hv & Hk) Hall].
    rewrite moves_cons, Hn in Hre. simpl in Hre.
    rewrite replay_app in Hre.
    destruct (replay (replicate (Z.to_nat n) (moveOf l)) x y)
      as [[x' y']|] eqn:Hfirst; [|done].
    pose proof (replay_bounds _ _ _ _ _ _ _ Hfirst Hx Hy) as [Hx' Hy'].
    cbn zeta. rewrite buildValuesFrom_cons.
    rewrite moves_cons, Hn, edits_app, edits_replicate.
    change (default 0 (Some n)) with n. cbn [plus].
    unfold newValues, oldValues in *.
    unfold moveOf, isAdded, isRemoved in Hfirst |- *.
    destruct Hk as [[Ha Hr]|[[Ha Hr]|[Ha Hr]]];
      rewrite Ha, Hr in Hfirst |- *; cbn [truthy negb] in Hfirst |- *;
      rewrite !valuesOf_cons, editCount_cons, valueCost_cons;
      unfold isAdded, isRemoved; cbn [added removed value count truthy negb orb default].
    + apply replay_keeps in Hfirst as (-> & -> & Ht).
      destruct (IH _ _ Hall Hre ltac:(lia) ltac:(lia)) as (I1 & I2 & I3 & I4 & I5).
      rewrite !Nat2Z.inj_add, !Z2Nat.id in I1, I2, I3, I4, I5 by lia.
      unfold isAdded, isRemoved in I1, I2.
      rewrite I1, I2, I3, I4.
      rewrite slice_take_drop by lia. rewrite !Nat2Z.id.
      rewrite decide_True by done.
      split_and!; try done.
      * by rewrite <- drop_drop, take_drop.
      * by rewrite Ht, <- drop_drop, take_drop.
      * apply Forall_cons. split; [|done]. by apply Hcounted; lia.
    + apply replay_inserts in Hfirst as (-> & ->).
      destruct (IH _ _ Hall Hre ltac:(lia) ltac:(lia)) as (I1 & I2 & I3 & I4 & I5).
      rewrite !Nat2Z.inj_add, !Z2Nat.id in I1, I2, I3, I4, I5 by lia.
      unfold isAdded, isRemoved in I1, I2.
      rewrite I1, I2, I3, I4.
      rewrite slice_take_drop by lia. rewrite !Nat2Z.id.
      rewrite decide_False by done.
      split_and!; try done.
      * by rewrite <- drop_drop, take_drop.
      * cbn [plus]. f_equal. lia.
      * unfold id. rewrite length_take, length_drop. lia.
      * apply Forall_cons. split; [|done]. by apply Hcounted; lia.
    + apply replay_deletes in Hfirst as (-> & ->).
      destruct (IH _ _ Hall Hre ltac:(lia) ltac:(lia)) as (I1 & I2 & I3 & I4 & I5).
      rewrite !Nat2Z.inj_add, !Z2Nat.id in I1, I2, I3, I4, I5 by lia.
      unfold isAdded, isRemoved in I1, I2.
      rewrite I1, I2, I3, I4.
      rewrite slice_take_drop by lia. rewrite !Nat2Z.id.
      rewrite decide_False by done.
      split_and!; try done.
      * by rewrite <- drop_drop, take_drop.
      * cbn [plus]. f_equal. lia.
      * unfold id. rewrite length_take, length_drop. lia.
      * apply Forall_cons. split; [|done]. by apply Hcounted; lia.
Qed.

Lemma buildValuesFrom_header cs nx ny :
  header <$> buildValuesFrom cs nx ny = header <$> cs.
Proof.
  revert nx ny. induction cs as [|l cs IH]; intros nx ny; [done|].
  rewrite buildValuesFrom_cons.
  destruct (negb (truthy (removed l))); rewrite !fmap_cons, IH; done.
Qed.

Lemma noAdjacent_header (r1 r2 : list (component A)) :
  header <$> r1 = header <$> r2 → noAdjacent r1 → noAdjacent r2.
Proof.
  revert r2. induction r1 as [|c1 r1 IH]; intros r2 Hh Hadj.
  - by destruct r2.
  - destruct r2 as [|d1 r2]; [done|].
    rewrite !fmap_cons in Hh.
    pose proof (f_equal head Hh) as Hhd. pose proof (f_equal tail Hh) as Htl.
    simpl in Hhd, Htl.
    destruct r1 as [|c2 r1], r2 as [|d2 r2]; try done.
    destruct Hadj as [Hk Hadj].
    split; [|by apply IH].
    pose proof (f_equal head Htl) as Hhd2. simpl in Hhd2.
    unfold header in *. intros [Hs1 Hs2]. apply Hk.
    split; congruence.
Qed.

(** What a script found at edit length [d] looks like. *)
Lemma found_spec d s :
  found d s →
  validScript oldString newString s
  ∧ editCount s = Some d
  ∧ Z.of_nat (valueCost s) = d
  ∧ Forall counted s
  ∧ noAdjacent s
  ∧ Forall (fun c => ¬ (isAdded c ∧ isRemoved c)) s
  ∧ (commonPrefix oldString newString ≠ [] →
     ∃ c r, s = c :: r ∧ isCommon c
            ∧ value c = Some (commonPrefix oldString newString)).
Proof.
  intros (cs & -> & Hall & Hadj & Hpre & Hre & Hed).
  unfold buildValues.
  destruct (buildValuesFrom_spec cs 0 0 Hall Hre ltac:(lia) ltac:(lia))
    as (H1 & H2 & H3 & H4 & H5).
  rewrite !drop_0 in *. change (Z.of_nat 0) with 0 in *.
  split_and!; try done.
  - by rewrite H3, Hed.
  - by rewrite H4.
  - eapply noAdjacent_header; [|done]. symmetry. apply buildValuesFrom_header.
  - pose proof (buildValuesFrom_header cs (Some 0) (Some 0)) as Hh.
    revert Hh Hall. generalize (buildValuesFrom cs (Some 0) (Some 0)).
    clear. intros s Hh Hall. revert s Hh.
    induction Hall as [|c cs Hc Hall IH]; intros [|c' s] Hh; try done.
    rewrite !fmap_cons in Hh.
    pose proof (f_equal head Hh) as Hhd. pose proof (f_equal tail Hh) as Htl.
    simpl in Hhd, Htl.
    apply Forall_cons. split; [|by apply IH].
    destruct Hc as (_ & _ & Hk). unfold header in Hhd.
    assert (added c' = added c ∧ removed c' = removed c) as [Ha Hr]
      by (split; congruence).
    unfold isAdded, isRemoved. rewrite Ha, Hr.
    destruct Hk as [[-> ->]|[[-> ->]|[-> ->]]]; simpl; tauto.
  - intros Hne. specialize (Hpre Hne).
    destruct cs as [|c cs]; [done|]. simpl in Hpre. simplify_eq.
    rewrite buildValuesFrom_cons. simpl.
    eexists _, _. split; [done|]. split; [done|]. simpl. f_equal.
    clear.
    assert (∀ xs ys : list A,
              take (length (commonPrefix xs ys)) ys = commonPrefix xs ys) as Ht.
    { induction xs as [|a xs IH]; intros [|b ys]; simpl; try done.
      case_decide; [|done]. subst. simpl. by rewrite IH. }
    assert (∀ xs ys : list A,
              (length (commonPrefix xs ys) ≤ length ys)%nat) as Hl.
    { intros xs ys. rewrite <- (Ht xs ys) at 1. rewrite length_take. lia. }
    pose proof (Hl oldString newString).
    rewrite slice_take_drop by lia.
    rewrite Nat2Z.id. simpl. rewrite drop_0. apply Ht.
Qed.

End ValueFacts.

(** ** The longest common prefix *)

Section PrefixFacts.
Context {A : Type} `{EqDecision A}.
Implicit Types xs ys p : list A.

Lemma commonPrefix_prefix_l xs ys : commonPrefix xs ys `prefix_of` xs.
Proof.
  revert ys. induction xs as [|a xs IH]; intros [|b ys]; simpl;
    try apply prefix_nil.
  case_decide; [|apply prefix_nil]. by apply prefix_cons.
Qed.

Lemma commonPrefix_prefix_r xs ys : commonPrefix xs ys `prefix_of` ys.
Proof.
  revert ys. induction xs as [|a xs IH]; intros [|b ys]; simpl;
    try apply prefix_nil.
  case_decide; [|apply prefix_nil]. subst. by apply prefix_cons.
Qed.

Lemma commonPrefix_longest xs ys p :
  p `prefix_of` xs → p `prefix_of` ys → p `prefix_of` commonPrefix xs ys.
Proof.
  revert xs ys. induction p as [|c p IH]; intros xs ys Hx Hy;
    [apply prefix_nil|].
  destruct xs as [|a xs]; [by apply prefix_nil_not in Hx|].
  destruct ys as [|b ys]; [by apply prefix_nil_not in Hy|].
  apply prefix_cons_inv_1 in Hx as Ha. apply prefix_cons_inv_1 in Hy as Hb.
  apply prefix_cons_inv_2 in Hx. apply prefix_cons_inv_2 in Hy.
  subst. simpl. rewrite decide_True by done.
  apply prefix_cons. by apply IH.
Qed.

End PrefixFacts.

(** ** The four ways [diffChars] returns *)

Section CaseFacts.
Context {A : Type} `{EqDecision A}.
Implicit Types oldString newString : list A.

Lemma diffChars_same newString :
  diffChars newString newString = Script [Component None None None (Some newString)].
Proof. unfold diffChars. by rewrite bool_decide_eq_true_2. Qed.

Lemma diffChars_new_empty oldString :
  oldString ≠ [] →
  diffChars oldString [] = Script [Component None None (Some true) (Some oldString)].
Proof.
  intros Hne. unfold diffChars.
  rewrite bool_decide_eq_false_2 by done. done.
Qed.

Lemma diffChars_old_empty newString :
  newString ≠ [] →
  diffChars [] newString = Script [Component None (Some true) None (Some newString)].
Proof.
  intros Hne. unfold diffChars.
  rewrite !bool_decide_eq_false_2 by done. done.
Qed.

(** Past the three guards, [diffChars] is the [while] loop on the seed. *)
Lemma diffChars_loop oldString newString :
  oldString ≠ newString → oldString ≠ [] → newString ≠ [] →
  diffChars oldString newString
  = editLoop oldString newString
      (Z.to_nat (newLen newString + oldLen oldString)) 1
      (seedBestPath oldString newString).
Proof.
  intros Hne Ho Hn. unfold diffChars, seedBestPath.
  rewrite !bool_decide_eq_false_2 by done.
  destruct (seed_spec oldString newString) as (c & -> & Hok); [done|].
  destruct Hok as (_ & _ & _ & _ & _ & Hgoal).
  unfold consumedNew, consumedOld in Hgoal. simpl in Hgoal.
  replace (bool_decide (newLen newString ≤ -1 + Z.of_nat c + 1)
           && bool_decide (oldLen oldString ≤ -1 + Z.of_nat c - 0 + 1))
    with false; [done|].
  symmetry. apply andb_false_iff. rewrite !bool_decide_eq_false.
  unfold newLen, oldLen. lia.
Qed.

Lemma diffChars_cases oldString newString :
  (oldString = newString
   ∧ diffChars oldString newString
     = Script [Component None None None (Some newString)])
  ∨ (oldString ≠ [] ∧ newString = []
     ∧ diffChars oldString newString
       = Script [Component None None (Some true) (Some oldString)])
  ∨ (oldString = [] ∧ newString ≠ []
     ∧ diffChars oldString newString
       = Script [Component None (Some true) None (Some newString)])
  ∨ (oldString ≠ newString ∧ oldString ≠ [] ∧ newString ≠ []
     ∧ ∃ s, diffChars oldString newString = Script s
            ∧ found oldString newString
                (Z.of_nat (editDistance oldString newString)) s).
Proof.
  destruct (decide (oldString = newString)) as [->|Hne].
  { left. split; [done|]. apply diffChars_same. }
  destruct (decide (newString = [])) as [->|Hn].
  { right. left. split_and!; try done. by apply diffChars_new_empty. }
  destruct (decide (oldString = [])) as [->|Ho].
  { right. right. left. split_and!; try done. by apply diffChars_old_empty. }
  right. right. right. split_and!; try done.
  destruct (diffChars_search oldString newString Hne Ho Hn)
    as (s & _ & Hs & Hf & _).
  by exists s.
Qed.

(** Every call returns a script, and the script is a valid one. *)
Lemma diffChars_valid oldString newString :
  ∃ s, diffChars oldString newString = Script s
       ∧ validScript oldString newString s.
Proof.
  destruct (diffChars_cases oldString newString)
    as [[-> Hs]|[(Ho & -> & Hs)|[(-> & Hn & Hs)|(_ & _ & _ & s & Hs & Hf)]]].
  - eexists. split; [done|].
    unfold validScript, newValues, oldValues. rewrite !valuesOf_cons. simpl.
    by rewrite app_nil_r.
  - eexists. split; [done|].
    unfold validScript, newValues, oldValues. rewrite !valuesOf_cons. simpl.
    by rewrite app_nil_r.
  - eexists. split; [done|].
    unfold validScript, newValues, oldValues. rewrite !valuesOf_cons. simpl.
    by rewrite app_nil_r.
  - exists s. split; [done|].
    by destruct (found_spec _ _ _ _ Hf) as (Hv & _).
Qed.

End CaseFacts.

(** * The properties of [diffChars] *)

Section Results.
Context {A : Type} `{EqDecision A}.
Implicit Types (old new : list A) (s : list (component A)).

(** C2. Reconstruction: for all sequences, the values of the components
    that are not removed, concatenated in order, are the new sequence, and
    the values of the components that are not added are the old one. *)
Theorem diffChars_reconstructs old new :
  ∃ s, diffChars old new = Script s
       ∧ newValues s = Some new ∧ oldValues s = Some old.
Proof.
  destruct (diffChars_valid old new) as (s & Hs & Hov & Hnv).
  by exists s.
Qed.

(** C1 (amended). The script of [diffChars] is a valid edit script whose
    added and removed values hold as many elements as the reference
    distance, which no valid script undercuts; and when the two sequences
    are both empty or both non-empty, the [count] fields of its added and
    removed components add up to that distance. *)
Theorem diffChars_minimal old new :
  ∃ s, diffChars old new = Script s
       ∧ validScript old new s
       ∧ valueCost s = editDistance old new
       ∧ (∀ s', validScript old new s' → (valueCost s ≤ valueCost s')%nat)
       ∧ ((old = [] ↔ new = []) →
          editCount s = Some (Z.of_nat (editDistance old new))).
Proof.
  destruct (diffChars_valid old new) as (s & Hs & Hv).
  exists s. split; [done|]. split; [done|].
  assert (valueCost s = editDistance old new
          ∧ ((old = [] ↔ new = []) →
             editCount s = Some (Z.of_nat (editDistance old new))))
    as [Hcost Hcount]; cycle 1.
  { split_and!; try done. intros s' Hv'. rewrite Hcost.
    by apply validScript_cost. }
  destruct (diffChars_cases old new)
    as [[-> Hs']|[(Ho & -> & Hs')|[(-> & Hn & Hs')|(_ & _ & _ & s' & Hs' & Hf)]]];
    rewrite Hs in Hs'; injection Hs' as ->.
  - rewrite editDistance_refl. done.
  - rewrite editDistance_nil_r. split.
    + unfold valueCost. simpl. lia.
    + intros [_ Hiff]. by specialize (Hiff eq_refl).
  - split.
    + unfold valueCost. simpl. lia.
    + intros [Hiff _]. by specialize (Hiff eq_refl).
  - destruct (found_spec _ _ _ _ Hf) as (_ & Hc & Hvc & _).
    split; [lia|done].
Qed.

(** C3. Termination: [diffChars] returns an edit script for all sequences,
    one whose values rebuild both of them; when the [while] loop is entered,
    some pass at an edit length between 1 and [len(old) + len(new)] finds a
    solution, a sound script with that many edits that ends at the end of
    both sequences, and returns it, after every pass at a smaller edit
    length went on without one; that solution is the script of
    [diffChars]. *)
Theorem diffChars_terminates old new :
  (∃ s, diffChars old new = Script s ∧ validScript old new s)
  ∧ (old ≠ new → old ≠ [] → new ≠ [] →
     diffChars old new
     = editLoop old new (Z.to_nat (newLen new + oldLen old)) 1
         (seedBestPath old new)
     ∧ ∃ s d bp,
         1 ≤ d ≤ Z.of_nat (length old + length new)
         ∧ failedPasses old new (Z.to_nat (d - 1)) 1 (seedBestPath old new)
           = Some bp
         ∧ execEditLength old new d bp = Return s
         ∧ diffChars old new = Script s
         ∧ found old new d s
         ∧ validScript old new s).
Proof.
  split.
  - apply diffChars_valid.
  - intros Hne Ho Hn. split; [by apply diffChars_loop|].
    destruct (diffChars_search old new Hne Ho Hn)
      as (s & bp & Hs & Hf & Hd & Hfp & Hret).
    exists s, (Z.of_nat (editDistance old new)), bp.
    destruct (found_spec _ _ _ _ Hf) as (Hv & _).
    split_and!; try done; lia.
Qed.

(** C4 (amended). When both the insert predecessor and the delete predecessor
    can be extended, the search branches from the delete path exactly when
    the insert predecessor's position in the new sequence is strictly less
    than the delete predecessor's, and from the insert path otherwise, ties
    included. *)
Theorem branch_choice old new (a r : path A) (oldPos : Z) :
  canAdd new (Some a) = true →
  canRemove old (Some r) oldPos = true →
  (branchFromRemove old new (Some a) (Some r) oldPos = Some true
   ↔ newPos a < newPos r)
  ∧ (branchFromRemove old new (Some a) (Some r) oldPos = Some false
     ↔ newPos r ≤ newPos a)
  ∧ selectBase old new (Some a) (Some r) oldPos
    = Some (if bool_decide (newPos a < newPos r)
            then Path (newPos r) (pushComponent (components r) None (Some true))
            else Path (newPos a + 1)
                      (pushComponent (components a) (Some true) None)).
Proof.
  intros Hadd Hrem. unfold selectBase, branchFromRemove.
  rewrite Hadd, Hrem. simpl.
  case_bool_decide; split_and!; try done; split; try done; lia.
Qed.

(** C5. No two consecutive components of the script have the same
    [(added, removed)] pair. *)
Theorem diffChars_no_adjacent old new :
  ∃ s, diffChars old new = Script s ∧ noAdjacent s.
Proof.
  destruct (diffChars_cases old new)
    as [[-> Hs]|[(Ho & -> & Hs)|[(-> & Hn & Hs)|(_ & _ & _ & s & Hs & Hf)]]];
    try (eexists; split; [done|]; done).
  exists s. split; [done|].
  by destruct (found_spec _ _ _ _ Hf) as (_ & _ & _ & _ & Hadj & _).
Qed.

(** C6. Identity: [diffChars S S] is the single common component with value
    [S] and no flag, for every [S]; for the empty sequence it is
    [[{value: ""}]]. *)
Theorem diffChars_identity :
  (∀ S : list A, diffChars S S = Script [Component None None None (Some S)])
  ∧ diffChars (A:=A) [] [] = Script [Component None None None (Some [])].
Proof. split; [apply diffChars_same|apply (diffChars_same [])]. Qed.

(** C7. For a non-empty [S], [diffChars "" S] is the single added component
    with value [S], and [diffChars S ""] the single removed one. *)
Theorem diffChars_empty_side (S : list A) :
  S ≠ [] →
  diffChars [] S = Script [Component None (Some true) None (Some S)]
  ∧ diffChars S [] = Script [Component None None (Some true) (Some S)].
Proof.
  intros Hne. split; [by apply diffChars_old_empty|by apply diffChars_new_empty].
Qed.

(** C8 (amended). In every script at most one of [added] and [removed] is
    set; and every component of a script that the search returns, for two
    different non-empty sequences, has a count that is the length of its
    value and at least 1. *)
Theorem components_shape old new :
  ∃ s, diffChars old new = Script s
       ∧ Forall oneFlag s
       ∧ (old ≠ new → old ≠ [] → new ≠ [] →
          Forall counted s ∧ Forall positiveCount s).
Proof.
  destruct (diffChars_cases old new)
    as [[-> Hs]|[(Ho & -> & Hs)|[(-> & Hn & Hs)|(Hne & Ho & Hn & s & Hs & Hf)]]].
  - eexists. split; [done|]. split; [|done].
    apply Forall_singleton. by intros [? ?].
  - eexists. split; [done|]. split; [|done].
    apply Forall_singleton. by intros [? ?].
  - eexists. split; [done|]. split; [|done].
    apply Forall_singleton. by intros [? ?].
  - exists s. split; [done|].
    destruct (found_spec _ _ _ _ Hf) as (_ & _ & _ & Hcnt & _ & Hone & _).
    split; [done|]. intros _ _ _. split; [done|].
    apply (Forall_impl _ _ _ Hcnt).
    intros c (v & Hv & Hc & Hnil). eexists. split; [done|].
    destruct v; [done|]. simpl. lia.
Qed.

(** C10. For two different sequences with a non-empty common prefix, the
    first component of the script is a common one whose value is the longest
    common prefix: a prefix of both sequences that every common prefix is a
    prefix of; the component after it is of another kind. *)
Theorem diffChars_prefix_first old new :
  old ≠ new → commonPrefix old new ≠ [] →
  ∃ c s v,
    diffChars old new = Script (c :: s)
    ∧ isCommon c ∧ value c = Some v ∧ v = commonPrefix old new
    ∧ v `prefix_of` old ∧ v `prefix_of` new
    ∧ (∀ p, p `prefix_of` old → p `prefix_of` new → p `prefix_of` v)
    ∧ (∀ c', head s = Some c' → ¬ sameKind c c').
Proof.
  intros Hne Hpre.
  destruct (diffChars_cases old new)
    as [[-> Hs]|[(Ho & -> & Hs)|[(-> & Hn & Hs)|(_ & _ & _ & s & Hs & Hf)]]].
  - done.
  - by rewrite commonPrefix_nil_r in Hpre.
  - done.
  - destruct (found_spec _ _ _ _ Hf) as (_ & _ & _ & _ & Hadj & _ & Hfirst).
    destruct (Hfirst Hpre) as (c & r & -> & Hc & Hv).
    exists c, r, (commonPrefix old new). split_and!; try done.
    + apply commonPrefix_prefix_l.
    + apply commonPrefix_prefix_r.
    + apply commonPrefix_longest.
    + intros c' Hc'. destruct r as [|c2 r]; [done|].
      simpl in Hc'. simplify_eq. apply Hadj.
Qed.

End Results.

(** * Concrete scripts *)

Local Open Scope string_scope.

(** C9. [diffChars "abc" "abXc"] is the common run ["ab"], the added run
    ["X"] and the common run ["c"]. *)
Theorem diffChars_abc_abXc :
  diffChars (str "abc") (str "abXc")
  = Script [Component (Some 2) None None (Some (str "ab"));
            Component (Some 1) (Some true) None (Some (str "X"));
            Component (Some 1) None None (Some (str "c"))].
Proof. vm_compute. reflexivity. Qed.

Example diffChars_hello_helo :
  diffChars (str "hello") (str "helo")
  = Script [Component (Some 3) None None (Some (str "hel"));
            Component (Some 1) None (Some true) (Some (str "l"));
            Component (Some 1) None None (Some (str "o"))].
Proof. vm_compute. reflexivity. Qed.

(** C1 (as stated) fails when the old sequence is empty: the only component
    of [diffChars "" "a"] is added and has no [count], so the counts do not
    add up to the distance 1. *)
Lemma counts_fail_empty_old : ¬ countsGiveDistance (str "") (str "a").
Proof.
  intros (s & Hs & Hc). vm_compute in Hs. injection Hs as <-.
  vm_compute in Hc. discriminate.
Qed.

(** C4 (as stated) fails in the second pass of [diffChars "ab" "ba"]: on
    diagonal 0 both predecessors can be extended and the insert predecessor
    is strictly behind, yet the search branches from the delete path. *)
Lemma tie_break_refuted :
  ∃ bp a r,
    failedPasses (str "ab") (str "ba") 1 1 (seedBestPath (str "ab") (str "ba"))
    = Some bp
    ∧ bp !! (-1) = Some a ∧ bp !! 1 = Some r
    ∧ canAdd (str "ba") (Some a) = true
    ∧ canRemove (str "ab") (Some r) (newPos r - 0) = true
    ∧ newPos a < newPos r
    ∧ branchFromRemove (str "ab") (str "ba") (Some a) (Some r) (newPos r - 0)
      = Some true
    ∧ ¬ insertIffBehind (str "ab") (str "ba") a r (newPos r - 0).
Proof.
  eexists _, _, _.
  split; [vm_compute; reflexivity|].
  split; [vm_compute; reflexivity|].
  split; [vm_compute; reflexivity|].
  split; [vm_compute; reflexivity|].
  split; [vm_compute; reflexivity|].
  split; [vm_compute; reflexivity|].
  split; [vm_compute; reflexivity|].
  intros [_ Hback]. specialize (Hback ltac:(vm_compute; reflexivity)).
  vm_compute in Hback. discriminate.
Qed.

(** C8 (as stated) fails on identical sequences: the component of
    [diffChars "" ""] has no [count]. *)
Lemma count_missing_identity :
  ∃ s, diffChars (str "") (str "") = Script s ∧ ¬ Forall positiveCount s.
Proof.
  eexists. split; [vm_compute; reflexivity|].
  intros Hall. apply Forall_singleton in Hall as (n & Hn & _). discriminate.
Qed.

(** ** The theorems at concrete sequences *)

(** The sum of the counts for ["kitten"] and ["sitting"], both non-empty. *)
Lemma diffChars_minimal_witness :
  ∃ s, diffChars (str "kitten") (str "sitting") = Script s
       ∧ editCount s = Some 5.
Proof.
  destruct (diffChars_minimal (str "kitten") (str "sitting"))
    as (s & Hs & _ & _ & _ & Hcount).
  exists s. split; [exact Hs|].
  apply Hcount. split; intros H; vm_compute in H; discriminate.
Defined.

(** The pass that returns the script of [diffChars "ab" "ba"], a valid
    one. *)
Lemma diffChars_terminates_witness :
  ∃ s d bp,
    1 ≤ d ≤ 4
    ∧ failedPasses (str "ab") (str "ba") (Z.to_nat (d - 1)) 1
        (seedBestPath (str "ab") (str "ba")) = Some bp
    ∧ execEditLength (str "ab") (str "ba") d bp = Return s
    ∧ diffChars (str "ab") (str "ba") = Script s
    ∧ found (str "ab") (str "ba") d s
    ∧ validScript (str "ab") (str "ba") s.
Proof.
  destruct (diffChars_terminates (str "ab") (str "ba")) as [_ Hloop].
  destruct Hloop as [_ Hfound].
  - vm_compute. discriminate.
  - vm_compute. discriminate.
  - vm_compute. discriminate.
  - exact Hfound.
Defined.

(** The choice on diagonal 0 in the second pass of [diffChars "ab" "ba"]. *)
Lemma branch_choice_witness :
  selectBase (str "ab") (str "ba")
    (Some (Path 0 [Component (Some 1) None (Some true) None;
                   Component (Some 1) None None None]))
    (Some (Path 1 [Component (Some 1) (Some true) None None;
                   Component (Some 1) None None None])) 1
  = Some (Path 1 [Component (Some 1) (Some true) None None;
                  Component (Some 1) None None None;
                  Component (Some 1) None (Some true) None]).
Proof.
  destruct (branch_choice (str "ab") (str "ba")
              (Path 0 [Component (Some 1) None (Some true) None;
                       Component (Some 1) None None None])
              (Path 1 [Component (Some 1) (Some true) None None;
                       Component (Some 1) None None None]) 1)
    as (_ & _ & Hsel).
  - vm_compute. reflexivity.
  - vm_compute. reflexivity.
  - rewrite Hsel. vm_compute. reflexivity.
Defined.

(** The two scripts for ["abc"] against the empty sequence. *)
Lemma diffChars_empty_side_witness :
  diffChars (str "") (str "abc")
  = Script [Component None (Some true) None (Some (str "abc"))]
  ∧ diffChars (str "abc") (str "")
    = Script [Component None None (Some true) (Some (str "abc"))].
Proof.
  apply (diffChars_empty_side (str "abc")). vm_compute. discriminate.
Defined.

(** The counts of [diffChars "abc" "abXc"], found by the search. *)
Lemma components_shape_witness :
  ∃ s, diffChars (str "abc") (str "abXc") = Script s
       ∧ Forall oneFlag s ∧ Forall positiveCount s.
Proof.
  destruct (components_shape (str "abc") (str "abXc")) as (s & Hs & Hone & Hcnt).
  exists s. split; [exact Hs|]. split; [exact Hone|].
  apply Hcnt; vm_compute; discriminate.
Defined.

(** The common prefix ["ab"] of ["abc"] and ["abXc"] comes first. *)
Lemma diffChars_prefix_first_witness :
  ∃ c s, diffChars (str "abc") (str "abXc") = Script (c :: s)
         ∧ value c = Some (str "ab").
Proof.
  destruct (diffChars_prefix_first (str "abc") (str "abXc"))
    as (c & s & v & Hs & _ & Hv & Hcp & _).
  - vm_compute. discriminate.
  - vm_compute. discriminate.
  - exists c, s. split; [exact Hs|]. rewrite Hv, Hcp. reflexivity.
Defined.

(** * Properties of the mentions input *)

Local Close Scope string_scope.

(** ** Escaping *)

Section EscapeFacts.
Local Open Scope char_scope.
Implicit Types (text s : list ascii) (c : ascii).

Lemma escapeHtml_cons c text :
  escapeHtml (c :: text)
  = match entityMap c with Some e => e | None => [c] end ++ escapeHtml text.
Proof. done. Qed.

Lemma escapeHtml_app text1 text2 :
  escapeHtml (text1 ++ text2) = escapeHtml text1 ++ escapeHtml text2.
Proof. apply bind_app. Qed.

(** What [entityMap] gives: an entity of at least four characters that
    starts with an ampersand and holds no markup character. *)
Lemma entityMap_Some c e :
  entityMap c = Some e →
  (∃ e', e = "&" :: e') ∧ (4 ≤ length e)%nat
  ∧ Forall (fun c' => c' ∉ markupChars) e
  ∧ (c = "&" ∨ c ∈ markupChars).
Proof.
  unfold entityMap, markupChars. intros He.
  repeat case_decide; try discriminate He; injection He as <-; subst c;
    (split; [by eexists|]);
    (split; [simpl; lia|]);
    split; apply (bool_decide_unpack _); vm_compute; exact I.
Qed.

Lemma entityMap_None c :
  entityMap c = None → c ≠ "&" ∧ c ∉ markupChars.
Proof.
  unfold entityMap, markupChars. intros He.
  repeat case_decide; try discriminate He.
  split; [done|]. intros Hin.
  repeat (apply elem_of_cons in Hin as [->|Hin]; [done|]).
  by apply elem_of_nil in Hin.
Qed.

Lemma escapeHtml_length text : (length text ≤ length (escapeHtml text))%nat.
Proof.
  induction text as [|c text IH]; [done|].
  rewrite escapeHtml_cons, length_app. simpl.
  destruct (entityMap c) as [e|] eqn:He; [|simpl; lia].
  destruct (entityMap_Some _ _ He) as (_ & Hl & _). lia.
Qed.

(** X1. The escaped text holds none of the characters [<], [>], the double
    quote, the single quote and the slash. *)
Theorem escapeHtml_clean text :
  Forall (fun c => c ∉ markupChars) (escapeHtml text).
Proof.
  induction text as [|c text IH]; [constructor|].
  rewrite escapeHtml_cons. apply Forall_app. split; [|done].
  destruct (entityMap c) as [e|] eqn:He.
  - by destruct (entityMap_Some _ _ He) as (_ & _ & Hc & _).
  - apply Forall_singleton. by destruct (entityMap_None _ He).
Qed.

(** X2. A text comes out of [escapeHtml] unchanged exactly when it holds
    none of the six characters of [entityMap]. *)
Theorem escapeHtml_unchanged text :
  escapeHtml text = text ↔ Forall (fun c => entityMap c = None) text.
Proof.
  split.
  - induction text as [|c text IH]; [by constructor|].
    rewrite escapeHtml_cons. intros Heq.
    destruct (entityMap c) as [e|] eqn:He.
    + exfalso. destruct (entityMap_Some _ _ He) as ([e' ->] & Hl & _).
      apply (f_equal length) in Heq. rewrite length_app in Heq.
      pose proof (escapeHtml_length text). simpl in *. lia.
    + simpl in Heq. simplify_eq. apply Forall_cons. split; [done|]. by apply IH.
  - induction 1 as [|c text Hc _ IH]; [done|].
    by rewrite escapeHtml_cons, Hc, IH.
Qed.

(** X3. Escaping loses nothing: two texts with the same escaped text are
    the same text. *)
Theorem escapeHtml_inj text1 text2 :
  escapeHtml text1 = escapeHtml text2 → text1 = text2.
Proof.
  revert text2. induction text1 as [|c1 text1 IH]; intros [|c2 text2] Heq.
  - done.
  - exfalso. apply (f_equal length) in Heq.
    pose proof (escapeHtml_length (c2 :: text2)). simpl in *. lia.
  - exfalso. apply (f_equal length) in Heq.
    pose proof (escapeHtml_length (c1 :: text1)). simpl in *. lia.
  - rewrite !escapeHtml_cons in Heq.
    destruct (entityMap c1) as [e1|] eqn:H1, (entityMap c2) as [e2|] eqn:H2.
    + assert (c1 = c2 ∧ e1 = e2) as [-> ->].
      { revert H1 H2 Heq. unfold entityMap.
        repeat case_decide; intros; simplify_eq/=; done. }
      apply app_inv_head in Heq. f_equal. by apply IH.
    + exfalso. destruct (entityMap_Some _ _ H1) as ([e' ->] & _).
      destruct (entityMap_None _ H2) as [Hne _]. simpl in Heq. congruence.
    + exfalso. destruct (entityMap_Some _ _ H2) as ([e' ->] & _).
      destruct (entityMap_None _ H1) as [Hne _]. simpl in Heq. congruence.
    + simpl in Heq. simplify_eq. f_equal. by apply IH.
Qed.

Lemma escapeRegExp_cons c s :
  escapeRegExp (c :: s)
  = (if bool_decide (c ∈ specials) then ["\"; c] else [c]) ++ escapeRegExp s.
Proof. done. Qed.

Lemma backslash_special : "\" ∈ specials.
Proof. apply (bool_decide_unpack _). vm_compute. exact I. Qed.

Lemma unescapeRegExp_plain c s :
  c ≠ "\" → unescapeRegExp (c :: s) = c :: unescapeRegExp s.
Proof.
  intros Hc. destruct c as [[] [] [] [] [] [] [] []]; try done; by destruct s.
Qed.

Lemma literalOnly_plain c s :
  c ≠ "\" →
  literalOnly (c :: s) = negb (bool_decide (c ∈ specials)) && literalOnly s.
Proof.
  intros Hc. destruct c as [[] [] [] [] [] [] [] []]; try done; by destruct s.
Qed.

(** X4. An escaped string is literal throughout when read as a pattern,
    and the characters it stands for are those of the string. *)
Theorem escapeRegExp_literal s :
  literalOnly (escapeRegExp s) = true
  ∧ unescapeRegExp (escapeRegExp s) = s.
Proof.
  induction s as [|c s [IH1 IH2]]; [done|].
  rewrite escapeRegExp_cons. case_bool_decide as Hc.
  - change (literalOnly (["\"; c] ++ escapeRegExp s))
      with (bool_decide (c ∈ specials) && literalOnly (escapeRegExp s)).
    change (unescapeRegExp (["\"; c] ++ escapeRegExp s))
      with (c :: unescapeRegExp (escapeRegExp s)).
    by rewrite IH1, IH2, bool_decide_eq_true_2.
  - assert (c ≠ "\") as Hb by (intros ->; apply Hc, backslash_special).
    simpl app. rewrite literalOnly_plain, unescapeRegExp_plain by done.
    rewrite IH1, IH2, bool_decide_eq_false_2 by done. done.
Qed.

End EscapeFacts.

(** ** Pieces of a string *)

(** Settles every [Z.min] and [Z.max] of the goal that [lia] can settle. *)
Ltac clamp_minmax :=
  repeat match goal with
         | |- context [Z.max ?a ?b] =>
             first [rewrite (Z.max_l a b) by lia | rewrite (Z.max_r a b) by lia]
         | |- context [Z.min ?a ?b] =>
             first [rewrite (Z.min_l a b) by lia | rewrite (Z.min_r a b) by lia]
         end.

Section SubstringFacts.
Context {A : Type} `{EqDecision A}.
Implicit Types (s value what : list A).

Lemma substring_range s (a b : Z) :
  0 ≤ a → a ≤ b → b ≤ Z.of_nat (length s) →
  substring s (Some a) (Some b) = take (Z.to_nat (b - a)) (drop (Z.to_nat a) s).
Proof.
  intros Ha Hab Hb. unfold substring, substringIndex.
  rewrite !(Z.max_l _ 0), !(Z.min_l _ (Z.of_nat (length s))) by lia.
  rewrite (Z.max_r a b), (Z.min_l a b) by lia. done.
Qed.

Lemma substringFrom_range s (a : Z) :
  0 ≤ a → a ≤ Z.of_nat (length s) →
  substringFrom s (Some a) = drop (Z.to_nat a) s.
Proof.
  intros Ha Hb. unfold substringFrom. rewrite substring_range by lia.
  apply take_ge. rewrite length_drop. lia.
Qed.

Lemma substring_empty (start finish : option Z) :
  substring (A:=A) [] start finish = [].
Proof. unfold substring. by rewrite drop_nil, take_nil. Qed.

(** X5. [_cutChar] takes out the element at [index]; an index outside the
    string, negative or not, leaves the string as it is. *)
Theorem cutChar_delete value (index : Z) :
  cutChar value index
  = if bool_decide (0 ≤ index) then delete (Z.to_nat index) value else value.
Proof.
  unfold cutChar, substringFrom, substring, substringIndex.
  pose proof (Nat2Z.is_nonneg (length value)) as Hlen.
  case_bool_decide as Hi.
  - rewrite delete_take_drop.
    destruct (decide (index < Z.of_nat (length value))) as [Hlt|Hge];
      clamp_minmax.
    + rewrite Z.sub_0_r. simpl drop at 1. f_equal.
      replace (Z.to_nat (index + 1)) with (S (Z.to_nat index)) by lia.
      apply take_ge. rewrite length_drop. lia.
    + rewrite Z.sub_0_r, Z.sub_diag, Nat2Z.id.
      change (Z.to_nat 0) with 0%nat. rewrite drop_0, take_0.
      rewrite (take_ge value (length value)) by lia.
      rewrite (take_ge value (Z.to_nat index)) by lia.
      by rewrite (drop_ge value (S (Z.to_nat index))) by lia.
  - clamp_minmax. rewrite !Z.sub_0_r, Nat2Z.id.
    change (Z.to_nat 0) with 0%nat. rewrite drop_0, take_0.
    by rewrite (take_ge value (length value)) by lia.
Qed.

Lemma indexOf_unfold s what :
  indexOf s what
  = if bool_decide (what `prefix_of` s) then Some 0%nat
    else match s with
         | [] => None
         | _ :: s' => S <$> indexOf s' what
         end.
Proof. by destruct s. Qed.

Lemma indexOf_Some s what i :
  indexOf s what = Some i →
  ∃ post, s = take i s ++ what ++ post ∧ (i ≤ length s)%nat.
Proof.
  revert i. induction s as [|a s IH]; intros i; rewrite indexOf_unfold;
    case_bool_decide as Hp.
  - intros [= <-]. destruct Hp as [post ->]. exists post. split; [done|lia].
  - done.
  - intros [= <-]. destruct Hp as [post ->]. exists post.
    split; [done|simpl; lia].
  - destruct (indexOf s what) as [j|] eqn:Hj; [|done].
    intros [= <-]. destruct (IH j eq_refl) as (post & Hs & Hlen).
    exists post. simpl. split; [by f_equal|lia].
Qed.

Lemma indexOf_None s what :
  indexOf s what = None → ∀ pre post, s ≠ pre ++ what ++ post.
Proof.
  induction s as [|a s IH]; rewrite indexOf_unfold;
    case_bool_decide as Hp; try done.
  - intros _ pre post Hs. apply Hp.
    destruct pre; [|done]. simpl in Hs. by exists post.
  - destruct (indexOf s what) as [j|] eqn:Hj; [done|].
    intros _ pre post Hs. destruct pre as [|b pre].
    + apply Hp. by exists post.
    + simpl in Hs. injection Hs as _ Hs. by apply (IH eq_refl pre post).
Qed.

End SubstringFacts.

(** X6. [_replaceWithSpaces] puts one space less than the length of [what]
    where [what] first occurs, so the result is one element shorter than
    [value]; a [what] that does not occur leaves [value] as it is. *)
Theorem replaceWithSpaces_shorter (value what : list ascii) :
  ((∀ pre post, value ≠ pre ++ what ++ post) →
   replaceWithSpaces value what = value)
  ∧ (what ≠ [] → (∃ pre post, value = pre ++ what ++ post) →
     ∃ pre post,
       value = pre ++ what ++ post
       ∧ replaceWithSpaces value what
         = pre ++ replicate (length what - 1) " "%char ++ post
       ∧ S (length (replaceWithSpaces value what)) = length value).
Proof.
  unfold replaceWithSpaces, replaceFirst, joinEmpty. split.
  - intros Hno. destruct (indexOf value what) as [i|] eqn:Hi; [|done].
    destruct (indexOf_Some _ _ _ Hi) as (post & Hs & _).
    by destruct (Hno _ _ Hs).
  - intros Hne (pre0 & post0 & Hocc).
    destruct (indexOf value what) as [i|] eqn:Hi;
      [|by destruct (indexOf_None _ _ Hi _ _ Hocc)].
    destruct (indexOf_Some _ _ _ Hi) as (post & Hs & Hlen).
    exists (take i value), post. split; [done|].
    assert (drop (i + length what) value = post) as ->.
    { rewrite Hs at 1. rewrite <- drop_drop, drop_app_length'
        by (rewrite length_take; lia).
      by rewrite drop_app_length. }
    split; [done|].
    rewrite Hs at 2. rewrite !length_app, length_replicate.
    destruct what; [done|]. simpl. lia.
Qed.

(** ** Adding a mention *)

Section SortFacts.
Context {A : Type} `{EqDecision A}.
Implicit Types (m : Mention.t A) (ms : list (Mention.t A)).

Lemma insertByPos_perm m ms : insertByPos m ms ≡ₚ m :: ms.
Proof.
  induction ms as [|m' ms IH]; [done|]. simpl.
  case_bool_decide; [done|]. rewrite IH. apply Permutation_swap.
Qed.

Lemma insertByPos_sorted m ms :
  is_Some (Mention.pos m) → sortedByPos ms → sortedByPos (insertByPos m ms).
Proof.
  intros [p Hp]. induction ms as [|m' ms IH]; intros Hs.
  - simpl. split; [|done]. exists p. split; [done|constructor].
  - destruct Hs as [(q & Hq & Hall) Hs]. simpl.
    unfold comparePos. rewrite Hp, Hq.
    case_bool_decide as Hle.
    + split; [|by split; [exists q|]].
      exists p. split; [done|]. constructor; [exists q; split; [done|lia]|].
      eapply Forall_impl; [done|]. intros m1 (q1 & ? & ?). exists q1.
      split; [done|lia].
    + split; [|by apply IH].
      exists q. split; [done|].
      rewrite insertByPos_perm. constructor; [|done].
      exists p. split; [done|lia].
Qed.

Lemma sortByPos_perm ms : sortByPos ms ≡ₚ ms.
Proof.
  induction ms as [|m ms IH]; [done|]. unfold sortByPos in *. simpl.
  by rewrite insertByPos_perm, IH.
Qed.

Lemma sortByPos_sorted ms :
  Forall (fun m => is_Some (Mention.pos m)) ms → sortedByPos (sortByPos ms).
Proof.
  induction 1 as [|m ms Hm _ IH]; [done|].
  unfold sortByPos in *. simpl. by apply insertByPos_sorted.
Qed.

(** X7. When every position is a number, the array [_addMention] leaves
    holds the mentions it had and the new one, in the order of their
    positions. *)
Theorem addMention_sorted ms m :
  Forall (fun m' => is_Some (Mention.pos m')) (m :: ms) →
  sortedByPos (addMention ms m) ∧ addMention ms m ≡ₚ m :: ms.
Proof.
  intros Hall. unfold addMention. split.
  - apply sortByPos_sorted. apply Forall_cons in Hall as [Hm Hms].
    apply Forall_app. split; [done|]. by apply Forall_singleton.
  - rewrite sortByPos_perm. by rewrite Permutation_app_comm.
Qed.

End SortFacts.

(** ** The hidden value *)

Section HiddenFacts.
Context {A : Type} `{EqDecision A}.
Implicit Types (m : Mention.t A) (ms : list (Mention.t A)) (value : list A).

Lemma lineUp_bounds value c ms :
  lineUp value c ms → 0 ≤ c ≤ Z.of_nat (length value).
Proof.
  revert c. induction ms as [|m ms IH]; intros c; [done|].
  intros (p & v & _ & _ & Hc & _ & Hrest). apply IH in Hrest. lia.
Qed.

(** With the value of a mention as its markup, the loop copies the text
    between the cursor it starts with and the one it ends with. *)
Lemma hiddenLoop_plain value c ms :
  lineUp value c ms →
  ∃ c', hiddenLoop (fun m => default [] (Mention.value m)) value ms (Some c)
        = Some (take (Z.to_nat (c' - c)) (drop (Z.to_nat c) value), Some c')
        ∧ c ≤ c' ≤ Z.of_nat (length value).
Proof.
  revert c. induction ms as [|m ms IH]; intros c Hl.
  - exists c. simpl in *. rewrite Z.sub_diag. split; [done|lia].
  - destruct Hl as (p & v & Hp & Hv & Hc & Htext & Hrest).
    pose proof (lineUp_bounds _ _ _ Hrest) as Hb.
    destruct (IH _ Hrest) as (c' & Hloop & Hc').
    exists c'. simpl. rewrite Hp, Hv. simpl. rewrite Hloop.
    split; [|lia]. f_equal. f_equal.
    rewrite substring_range by lia.
    rewrite <- Htext at 1.
    replace (drop (Z.to_nat p) value)
      with (drop (Z.to_nat (p - c)) (drop (Z.to_nat c) value))
      by (rewrite drop_drop; f_equal; lia).
    replace (drop (Z.to_nat (p + Z.of_nat (length v))) value)
      with (drop (Z.to_nat (p - c) + length v) (drop (Z.to_nat c) value))
      by (rewrite drop_drop; f_equal; lia).
    generalize (drop (Z.to_nat c) value). intros l.
    rewrite (app_assoc (take _ l)), !take_take_drop. f_equal. lia.
Qed.

(** The length of what the loop builds, whatever the markup. *)
Lemma hiddenLoop_length markup value c ms :
  lineUp value c ms →
  ∃ content c',
    hiddenLoop markup value ms (Some c) = Some (content, Some c')
    ∧ c ≤ c' ≤ Z.of_nat (length value)
    ∧ Z.of_nat (length content)
      + Z.of_nat (sum_list ((fun m => length (default [] (Mention.value m))) <$> ms))
      = c' - c + Z.of_nat (sum_list ((fun m => length (markup m)) <$> ms)).
Proof.
  revert c. induction ms as [|m ms IH]; intros c Hl.
  - exists [], c. simpl in *. split; [done|]. split; lia.
  - destruct Hl as (p & v & Hp & Hv & Hc & Htext & Hrest).
    pose proof (lineUp_bounds _ _ _ Hrest) as Hb.
    destruct (IH _ Hrest) as (content & c' & Hloop & Hc' & Hlen).
    eexists _, c'. simpl. rewrite Hp, Hv. simpl. rewrite Hloop.
    split; [done|]. split; [lia|].
    rewrite substring_range by lia.
    rewrite !length_app, length_take, length_drop.
    repeat match goal with
           | |- context [list_fmap ?X ?Y ?f ms] =>
               change (list_fmap X Y f ms) with (f <$> ms)
           end.
    lia.
Qed.

(** X8. When the mentions stand in the text one after the other, each with
    its value at its position, writing every mention as its plain value
    makes the hidden value the text itself. *)
Theorem hiddenValue_plain value ms :
  lineUp value 0 ms →
  hiddenValue (fun m => default [] (Mention.value m)) value ms = Some value.
Proof.
  intros Hl. unfold hiddenValue.
  destruct (hiddenLoop_plain _ _ _ Hl) as (c' & -> & Hc').
  rewrite substringFrom_range by lia.
  change (Z.to_nat 0) with 0%nat. rewrite drop_0, Z.sub_0_r.
  by rewrite take_drop.
Qed.

Lemma hiddenLoop_is_Some markup value ms cursor :
  is_Some (hiddenLoop markup value ms cursor) ↔ Forall hasValue ms.
Proof.
  revert cursor. induction ms as [|m ms IH]; intros cursor.
  - split; [constructor|by eexists].
  - simpl. rewrite Forall_cons. unfold hasValue at 1.
    destruct (Mention.value m) as [v|].
    + rewrite <- (IH (plus (Mention.pos m) (Some (Z.of_nat (length v))))).
      destruct (hiddenLoop _ _ _ _) as [[? ?]|].
      * split; [by split; eexists|by eexists].
      * split; [by intros [? ?]|by intros [_ [? ?]]].
    + split; [by intros [? ?]|by intros [[? ?] _]].
Qed.

End HiddenFacts.

Section ValueFieldFacts.
Implicit Types (m : Mention.t ascii) (ms : list (Mention.t ascii)).

Lemma highlightLoop_is_Some value ms cursor :
  is_Some (highlightLoop value ms cursor) ↔ Forall hasValue ms.
Proof.
  revert cursor. induction ms as [|m ms IH]; intros cursor.
  - split; [constructor|by eexists].
  - simpl. rewrite Forall_cons. unfold hasValue at 1.
    destruct (Mention.value m) as [v|].
    + rewrite <- (IH (plus (Mention.pos m) (Some (Z.of_nat (length v))))).
      destruct (highlightLoop _ _ _) as [?|].
      * split; [by split; eexists|by eexists].
      * split; [by intros [? ?]|by intros [_ [? ?]]].
    + split; [by intros [? ?]|by intros [[? ?] _]].
Qed.

(** X9. With the markup of [_markupMention], and the mentions standing in
    the text one after the other, the hidden value is longer than the text
    by the length of the uid plus 5 for every mention. *)
Theorem hiddenValue_markup_length value ms :
  lineUp value 0 ms →
  ∃ h, hiddenValue markupMention value ms = Some h
       ∧ length h
         = (length value
            + sum_list ((fun m => length (Mention.uid m) + 5) <$> ms))%nat.
Proof.
  intros Hl. unfold hiddenValue.
  destruct (hiddenLoop_length markupMention _ _ _ Hl)
    as (content & c' & -> & Hc' & Hlen).
  eexists. split; [done|].
  rewrite substringFrom_range by lia.
  rewrite length_app, length_drop.
  assert (Forall hasValue ms) as Hall.
  { apply (hiddenLoop_is_Some (fun m => default [] (Mention.value m))
             value ms (Some 0)).
    destruct (hiddenLoop_plain _ _ _ Hl) as (? & -> & _). by eexists. }
  assert (sum_list ((fun m => length (markupMention m)) <$> ms)
          = (sum_list ((fun m => length (default [] (Mention.value m))) <$> ms)
             + sum_list ((fun m => length (Mention.uid m) + 5) <$> ms))%nat)
    as Hsum.
  { clear -Hall. induction Hall as [|m ms [v Hv] _ IH]; [done|].
    assert (∀ (x : nat) l, sum_list (x :: l) = (x + sum_list l)%nat) as Hcons
      by done.
    rewrite !fmap_cons, !Hcons, IH.
    unfold markupMention. rewrite Hv, !length_app. simpl. lia. }
  lia.
Qed.

(** X10. [_updateValue] fails, with the [TypeError] of reading the length of
    an undefined value, exactly when some mention has no value. *)
Theorem updateValue_is_Some markup preview (w : widget) :
  is_Some (updateValue markup preview w) ↔ Forall hasValue (mentions w).
Proof.
  unfold updateValue.
  pose proof (hiddenLoop_is_Some markup (inputVal w) (mentions w) (Some 0)) as H1.
  pose proof (highlightLoop_is_Some (inputVal w) (mentions w) (Some 0)) as H2.
  assert (∀ X, ¬ is_Some (@None X)) as Hnone by (by intros X [? ?]).
  destruct (hiddenLoop _ _ _ _) as [[? ?]|];
    [|split; [by intros ?%Hnone|by intros ?%H1%Hnone]].
  destruct (highlightLoop _ _ _) as [?|];
    [|split; [by intros ?%Hnone|by intros ?%H2%Hnone]].
  split; [intros _; apply H1; by eexists|by eexists].
Qed.

End ValueFieldFacts.

(** ** Moving the mentions *)

Section UpdateFacts.
Context {A : Type} `{EqDecision A}.
Implicit Types (m : Mention.t A) (ms : list (Mention.t A)).
Implicit Types (c : component A) (r s : list (component A)).
Implicit Types (old new value : list A).

Lemma shiftLoop_track s cursor ms :
  shiftLoop s cursor ms
  = (fun m => Mention.Make (trackPos s cursor (Mention.pos m))
                           (Mention.value m) (Mention.uid m)) <$> ms.
Proof.
  revert cursor ms. induction s as [|c s IH]; intros cursor ms.
  - simpl. rewrite <- (list_fmap_id ms) at 1.
    apply list_fmap_ext. by intros _ [? ? ?] _.
  - simpl. rewrite IH. unfold update_pos.
    destruct (truthy (added c)); [|destruct (truthy (removed c))];
      rewrite <- ?list_fmap_compose; try done;
      apply list_fmap_ext; intros _ m _; simpl;
      by destruct (geq (Mention.pos m) cursor).
Qed.

Lemma shiftLoop_hasValue s cursor ms :
  Forall hasValue (shiftLoop s cursor ms) ↔ Forall hasValue ms.
Proof. rewrite shiftLoop_track, Forall_fmap. done. Qed.

Lemma pruneLoop_is_Some value ms :
  is_Some (pruneLoop value ms) ↔ Forall hasValue ms.
Proof.
  induction ms as [|m ms IH].
  - split; [constructor|by eexists].
  - simpl. rewrite Forall_cons, <- IH. unfold hasValue.
    destruct (pruneLoop value ms) as [ms'|], (Mention.value m) as [v|];
      try case_bool_decide;
      (split; [intros ?|intros [? ?]]); try done;
      try (split; by eexists); try by eexists;
      by match goal with H : is_Some None |- _ => destruct H end.
Qed.

Lemma pruneLoop_elem value ms ms' m :
  pruneLoop value ms = Some ms' →
  m ∈ ms' ↔ m ∈ ms ∧ inPlace value m.
Proof.
  revert ms'. induction ms as [|m1 ms IH]; intros ms'; simpl.
  - intros [= <-]. split; [by intros ?%elem_of_nil|by intros [?%elem_of_nil _]].
  - destruct (pruneLoop value ms) as [ms1|]; [|done].
    destruct (Mention.value m1) as [v|] eqn:Hv; [|done].
    specialize (IH ms1 eq_refl).
    case_bool_decide as Hp; intros [= <-].
    + rewrite IH, elem_of_cons. split; [tauto|].
      intros [[->|?] Hin]; [|done].
      destruct Hin as (v' & Hv' & Hin). congruence.
    + rewrite !elem_of_cons, IH. split; [|tauto].
      intros [->|?]; [|tauto]. split; [by left|].
      exists v. split; [done|]. by destruct (decide (v = pieceAt value (Mention.pos m1) v)).
Qed.

Lemma pruneLoop_all value ms :
  Forall (inPlace value) ms → pruneLoop value ms = Some ms.
Proof.
  induction 1 as [|m ms (v & Hv & Hp) _ IH]; [done|].
  simpl. rewrite IH, Hv. by rewrite bool_decide_eq_false_2 by (by intros ?).
Qed.

Lemma pruneLoop_inPlace value ms ms' :
  pruneLoop value ms = Some ms' → Forall (inPlace value) ms'.
Proof.
  intros Hp. apply Forall_forall. intros m Hm.
  by apply (pruneLoop_elem _ _ _ m Hp) in Hm as [_ ?].
Qed.

(** X11. [_updateMentions] fails exactly when some mention has no value:
    the script of [diffChars] is always there to loop over. *)
Theorem updateMentions_is_Some old new ms :
  is_Some (updateMentions old new ms) ↔ Forall hasValue ms.
Proof.
  unfold updateMentions.
  destruct (diffChars_valid old new) as (s & -> & _).
  rewrite <- (shiftLoop_hasValue s (Some 0) ms), <- (pruneLoop_is_Some new).
  destruct (pruneLoop new _) as [l|].
  - split; intros _; by eexists.
  - split; by intros [? ?].
Qed.

(** X12. An update is settled at once: updating again on the text it ended
    with keeps every mention and every position. *)
Theorem updateMentions_again old new ms value' ms' :
  updateMentions old new ms = Some (value', ms') →
  value' = new ∧ updateMentions new new ms' = Some (new, ms').
Proof.
  unfold updateMentions.
  destruct (diffChars old new) as [s| |]; [|done..].
  destruct (pruneLoop new _) as [ms1|] eqn:Hp; [|done].
  intros [= <- <-]. split; [done|].
  rewrite diffChars_same. simpl.
  by rewrite (pruneLoop_all new ms1) by (by eapply pruneLoop_inPlace).
Qed.

End UpdateFacts.

(** ** Where a mention ends up *)

Section TrackFacts.
Context {A : Type} `{EqDecision A}.
Implicit Types (m : Mention.t A) (ms : list (Mention.t A)).
Implicit Types (c : component A) (r s : list (component A)).
Implicit Types (old new value : list A).

Lemma oldLength_cons c r :
  oldLength (c :: r)
  = (if isAdded c then 0 else Z.of_nat (length (default [] (value c))))
    + oldLength r.
Proof. unfold oldLength. rewrite fmap_cons. simpl. destruct (isAdded c); lia. Qed.

Lemma newLength_cons c r :
  newLength (c :: r)
  = (if isRemoved c then 0 else Z.of_nat (length (default [] (value c))))
    + newLength r.
Proof. unfold newLength. rewrite fmap_cons. simpl. destruct (isRemoved c); lia. Qed.

Lemma oldLength_nonneg r : 0 ≤ oldLength r.
Proof. unfold oldLength. lia. Qed.

Lemma newLength_nonneg r : 0 ≤ newLength r.
Proof. unfold newLength. lia. Qed.

Lemma trackPos_app r1 r2 cursor p :
  trackPos (r1 ++ r2) cursor p
  = trackPos r2 (endCursor r1 cursor) (trackPos r1 cursor p).
Proof.
  revert cursor p. induction r1 as [|c r1 IH]; intros cursor p; [done|].
  simpl. by rewrite IH.
Qed.

Lemma endCursor_counted r x :
  Forall counted r → endCursor r (Some x) = Some (x + newLength r).
Proof.
  intros Hall. revert x.
  induction Hall as [|c r (v & Hv & Hc & _) _ IH]; intros x.
  - simpl. f_equal. unfold newLength. simpl. lia.
  - simpl. rewrite newLength_cons, Hv, Hc. unfold isRemoved.
    destruct (truthy (removed c)); simpl; rewrite IH; f_equal; lia.
Qed.

(** A position at or after the part of the old text that the changes
    cover moves with the text. *)
Lemma trackPos_before r x y p :
  Forall counted r → Forall oneFlag r →
  y + oldLength r ≤ p →
  trackPos r (Some x) (Some (p + x - y))
  = Some (p + (x + newLength r) - (y + oldLength r)).
Proof.
  intros Hall. revert x y.
  induction Hall as [|c r (v & Hv & Hc & _) _ IH]; intros x y Hone Hp.
  - simpl. f_equal. unfold newLength, oldLength. simpl. lia.
  - apply Forall_cons in Hone as [Hone1 Hone].
    rewrite oldLength_cons, newLength_cons, Hv in *. simpl in Hp |- *.
    pose proof (oldLength_nonneg r).
    unfold oneFlag, isAdded, isRemoved in *. rewrite Hc.
    destruct (truthy (added c)) eqn:Ha, (truthy (removed c)) eqn:Hr; simpl.
    + exfalso. by apply Hone1.
    + rewrite bool_decide_eq_true_2 by lia.
      replace (p + x - y + Z.of_nat (length v))
        with (p + (x + Z.of_nat (length v)) - y) by lia.
      rewrite IH by (done || lia). f_equal. lia.
    + rewrite bool_decide_eq_true_2 by lia.
      replace (p + x - y + - Z.of_nat (length v))
        with (p + x - (y + Z.of_nat (length v))) by lia.
      rewrite IH by (done || lia). f_equal. lia.
    + replace (p + x - y)
        with (p + (x + Z.of_nat (length v)) - (y + Z.of_nat (length v))) by lia.
      rewrite IH by (done || lia). f_equal. lia.
Qed.

(** A position before the cursor stays where it is. *)
Lemma trackPos_after r x q :
  Forall counted r → q < x → trackPos r (Some x) (Some q) = Some q.
Proof.
  intros Hall. revert x.
  induction Hall as [|c r (v & Hv & Hc & _) _ IH]; intros x Hq; [done|].
  simpl. rewrite Hc.
  destruct (truthy (added c)), (truthy (removed c)); simpl;
    rewrite ?bool_decide_eq_false_2 by lia; apply IH; lia.
Qed.

(** A position inside a common run moves by the difference of the places
    the run has in the two texts. *)
Lemma trackPos_common s i c vc p :
  Forall counted s → Forall oneFlag s →
  s !! i = Some c → isCommon c → value c = Some vc →
  oldLength (take i s) ≤ p →
  p < oldLength (take i s) + Z.of_nat (length vc) →
  trackPos s (Some 0) (Some p)
  = Some (p + newLength (take i s) - oldLength (take i s)).
Proof.
  intros Hcnt Hone Hi Hcom Hvc Hlo Hhi.
  rewrite <- (take_drop_middle s i c Hi) at 1. rewrite trackPos_app.
  assert (Forall counted (take i s) ∧ Forall oneFlag (take i s)) as [Hc1 Ho1].
  { split; by apply Forall_take. }
  assert (Forall counted (drop (S i) s)) as Hc2 by (by apply Forall_drop).
  assert (counted c) as (v & Hv & Hc & _).
  { exact (Forall_lookup_1 _ _ _ _ Hcnt Hi). }
  rewrite endCursor_counted by done.
  pose proof (trackPos_before (take i s) 0 0 p Hc1 Ho1 ltac:(lia)) as Hb.
  replace (p + 0 - 0) with p in Hb by lia. rewrite Hb.
  simpl. rewrite Hc.
  unfold isCommon, isAdded, isRemoved in Hcom.
  destruct (truthy (added c)), (truthy (removed c)); try done. simpl.
  assert (v = vc) as -> by congruence.
  rewrite trackPos_after by (done || lia). f_equal; lia.
Qed.

Lemma valuesOf_app keep r1 r2 :
  valuesOf keep (r1 ++ r2)
  = match valuesOf keep r1, valuesOf keep r2 with
    | Some l1, Some l2 => Some (l1 ++ l2)
    | _, _ => None
    end.
Proof.
  induction r1 as [|c r1 IH].
  - rewrite app_nil_l, valuesOf_nil. by destruct (valuesOf keep r2).
  - rewrite <- app_comm_cons, !valuesOf_cons, IH.
    destruct (keep c); [|done].
    destruct (value c) as [v|]; [|done].
    destruct (valuesOf keep r1), (valuesOf keep r2); try done.
    by rewrite app_assoc.
Qed.

Lemma newValues_length r l :
  newValues r = Some l → Z.of_nat (length l) = newLength r.
Proof.
  unfold newValues. revert l. induction r as [|c r IH]; intros l.
  - rewrite valuesOf_nil. by intros [= <-].
  - rewrite valuesOf_cons, newLength_cons.
    destruct (isRemoved c); simpl; [by intros ?%IH|].
    destruct (value c) as [v|]; [|done].
    destruct (valuesOf _ r) as [l'|]; [|done].
    intros [= <-]. rewrite length_app, <- (IH l' eq_refl). simpl. lia.
Qed.

Lemma oldValues_length r l :
  oldValues r = Some l → Z.of_nat (length l) = oldLength r.
Proof.
  unfold oldValues. revert l. induction r as [|c r IH]; intros l.
  - rewrite valuesOf_nil. by intros [= <-].
  - rewrite valuesOf_cons, oldLength_cons.
    destruct (isAdded c); simpl; [by intros ?%IH|].
    destruct (value c) as [v|]; [|done].
    destruct (valuesOf _ r) as [l'|]; [|done].
    intros [= <-]. rewrite length_app, <- (IH l' eq_refl). simpl. lia.
Qed.

(** A common component of a valid script is a piece of both texts, at the
    places the components before it give. *)
Lemma common_in_both old new s i c vc :
  validScript old new s →
  s !! i = Some c → isCommon c → value c = Some vc →
  ∃ o1 o2 n1 n2,
    old = o1 ++ vc ++ o2 ∧ Z.of_nat (length o1) = oldLength (take i s)
    ∧ new = n1 ++ vc ++ n2 ∧ Z.of_nat (length n1) = newLength (take i s).
Proof.
  intros [Ho Hn] Hi Hcom Hvc.
  unfold isCommon in Hcom.
  destruct (isAdded c) eqn:Ha, (isRemoved c) eqn:Hr; try done.
  rewrite <- (take_drop_middle s i c Hi) in Ho, Hn.
  unfold oldValues, newValues in Ho, Hn.
  rewrite valuesOf_app, valuesOf_cons, Hvc in Ho, Hn. simpl in Ho, Hn.
  rewrite Ha in Ho. rewrite Hr in Hn. simpl in Ho, Hn.
  destruct (valuesOf (fun c => negb (isAdded c)) (take i s)) as [o1|] eqn:Ho1;
    [|done].
  destruct (valuesOf (fun c => negb (isAdded c)) (drop (S i) s)) as [o2|];
    [|done].
  destruct (valuesOf (fun c => negb (isRemoved c)) (take i s)) as [n1|] eqn:Hn1;
    [|done].
  destruct (valuesOf (fun c => negb (isRemoved c)) (drop (S i) s)) as [n2|];
    [|done].
  exists o1, o2, n1, n2. simplify_eq.
  split_and!; try done.
  - by apply oldValues_length.
  - by apply newValues_length.
Qed.

(** A window inside the middle part of a text. *)
Lemma window_middle (pre mid post : list A) (a n : nat) :
  (a + n ≤ length mid)%nat →
  take n (drop (length pre + a) (pre ++ mid ++ post)) = take n (drop a mid).
Proof.
  intros Hin.
  rewrite <- drop_drop, drop_app_length.
  rewrite drop_app_le by lia.
  apply take_app_le. rewrite length_drop. lia.
Qed.

(** The value of a mention standing at [q], when it fits in the text. *)
Lemma inPlace_window value m (q : Z) (v : list A) :
  Mention.value m = Some v →
  0 ≤ q → q + Z.of_nat (length v) ≤ Z.of_nat (length value) →
  take (length v) (drop (Z.to_nat q) value) = v →
  inPlace value (movedTo m q).
Proof.
  intros Hv Hq Hfit Ht. exists v. split; [done|].
  unfold pieceAt. simpl. rewrite substring_range by lia.
  replace (Z.to_nat (q + Z.of_nat (length v) - q)) with (length v) by lia.
  done.
Qed.

End TrackFacts.

(** ** Mentions across an edit *)

Section FollowFacts.
Context {A : Type} `{EqDecision A}.
Implicit Types (m : Mention.t A) (ms : list (Mention.t A)).
Implicit Types (c : component A) (r s : list (component A)).
Implicit Types (old new value : list A).

(** What the callers can rely on in a script of [diffChars]: it is valid,
    and it comes from the search, or is the one common component of two
    equal texts, or has no common component. *)
Lemma script_kinds old new s :
  diffChars old new = Script s →
  validScript old new s
  ∧ ((Forall counted s ∧ Forall oneFlag s)
     ∨ (old = new ∧ s = [Component None None None (Some new)])
     ∨ (∀ c, c ∈ s → ¬ isCommon c)).
Proof.
  intros Hs. destruct (diffChars_valid old new) as (s' & Hs' & Hv).
  assert (s' = s) as -> by congruence. split; [done|].
  destruct (diffChars_cases old new)
    as [[-> H1]|[(Ho & -> & H1)|[(-> & Hn & H1)|(_ & _ & _ & s1 & H1 & Hf)]]];
    rewrite Hs in H1; injection H1 as ->.
  - right. left. done.
  - right. right. intros c ->%list_elem_of_singleton. by intros ?.
  - right. right. intros c ->%list_elem_of_singleton. by intros ?.
  - left. by destruct (found_spec _ _ _ _ Hf) as (_ & _ & _ & ? & _ & ? & _).
Qed.

Lemma track_in_common old new s i c vc p :
  diffChars old new = Script s →
  s !! i = Some c → isCommon c → value c = Some vc →
  oldLength (take i s) ≤ p →
  p < oldLength (take i s) + Z.of_nat (length vc) →
  trackPos s (Some 0) (Some p)
  = Some (p + newLength (take i s) - oldLength (take i s)).
Proof.
  intros Hs Hi Hcom Hvc Hlo Hhi.
  destruct (script_kinds _ _ _ Hs) as [_ [[Hcnt Hone]|[[-> ->]|Hno]]].
  - by eapply trackPos_common.
  - destruct i; [|done]. simpl. f_equal.
    unfold newLength, oldLength. simpl. lia.
  - exfalso. apply (Hno c); [|done]. by eapply list_elem_of_lookup_2.
Qed.

(** The core of the two theorems below, for one mention. *)
Lemma follow_one old new s i c vc m p v :
  diffChars old new = Script s →
  s !! i = Some c → isCommon c → value c = Some vc →
  Mention.pos m = Some p → Mention.value m = Some v →
  oldLength (take i s) ≤ p →
  p < oldLength (take i s) + Z.of_nat (length vc) →
  p + Z.of_nat (length v) ≤ oldLength (take i s) + Z.of_nat (length vc) →
  take (length v) (drop (Z.to_nat p) old) = v →
  let q := p + newLength (take i s) - oldLength (take i s) in
  Mention.Make (trackPos s (Some 0) (Mention.pos m))
               (Mention.value m) (Mention.uid m) = movedTo m q
  ∧ inPlace new (movedTo m q).
Proof.
  intros Hs Hi Hcom Hvc Hp Hv Hlo Hhi Hfit Htext q.
  split.
  - unfold movedTo. f_equal. rewrite Hp. by eapply track_in_common.
  - destruct (script_kinds _ _ _ Hs) as [Hvalid _].
    destruct (common_in_both _ _ _ _ _ _ Hvalid Hi Hcom Hvc)
      as (o1 & o2 & n1 & n2 & Ho & Ho1 & Hn & Hn1).
    pose proof (oldLength_nonneg (take i s)).
    pose proof (newLength_nonneg (take i s)).
    set (a := Z.to_nat (p - oldLength (take i s))).
    assert (take (length v) (drop a vc) = v) as Hwin.
    { rewrite <- Htext at 2. rewrite Ho.
      replace (Z.to_nat p) with (length o1 + a)%nat by lia.
      symmetry. apply window_middle. lia. }
    apply (inPlace_window new m q v); [done|lia| |].
    + rewrite Hn, !length_app. lia.
    + rewrite Hn. replace (Z.to_nat q) with (length n1 + a)%nat by lia.
      rewrite window_middle by lia. done.
Qed.

(** X13. A mention whose value stands in the old text inside a common run of
    the script follows the run: after [_updateMentions] it is kept, moved
    by the difference between the places the run has in the new and in the
    old text, and its value stands there in the new text. *)
Theorem updateMentions_follows old new ms s i c vc m p v :
  diffChars old new = Script s →
  Forall hasValue ms →
  s !! i = Some c → isCommon c → value c = Some vc →
  m ∈ ms → Mention.pos m = Some p → Mention.value m = Some v →
  oldLength (take i s) ≤ p →
  p < oldLength (take i s) + Z.of_nat (length vc) →
  p + Z.of_nat (length v) ≤ oldLength (take i s) + Z.of_nat (length vc) →
  take (length v) (drop (Z.to_nat p) old) = v →
  ∃ ms', updateMentions old new ms = Some (new, ms')
         ∧ movedTo m (p + newLength (take i s) - oldLength (take i s)) ∈ ms'
         ∧ inPlace new
             (movedTo m (p + newLength (take i s) - oldLength (take i s))).
Proof.
  intros Hs Hall Hi Hcom Hvc Hm Hp Hv Hlo Hhi Hfit Htext.
  destruct (follow_one old new s i c vc m p v) as [Hmove Hin]; try done.
  unfold updateMentions. rewrite Hs.
  destruct (pruneLoop new (shiftLoop s (Some 0) ms)) as [ms'|] eqn:Hprune.
  - exists ms'. split; [done|]. split; [|done].
    apply (pruneLoop_elem _ _ _ _ Hprune). split; [|done].
    rewrite shiftLoop_track, <- Hmove.
    by apply (list_elem_of_fmap_2
                (fun m => Mention.Make (trackPos s (Some 0) (Mention.pos m))
                                       (Mention.value m) (Mention.uid m))).
  - exfalso.
    assert (is_Some (pruneLoop new (shiftLoop s (Some 0) ms))) as [? ?]
      by (by apply pruneLoop_is_Some, shiftLoop_hasValue).
    congruence.
Qed.

Lemma commonPrefix_same (xs : list A) : commonPrefix xs xs = xs.
Proof.
  induction xs as [|a xs IH]; [done|]. simpl. by rewrite decide_True, IH.
Qed.

Lemma first_common old new s :
  diffChars old new = Script s → commonPrefix old new ≠ [] →
  ∃ c r, s = c :: r ∧ isCommon c ∧ value c = Some (commonPrefix old new).
Proof.
  intros Hs Hne.
  destruct (diffChars_cases old new)
    as [[-> H1]|[(Ho & -> & H1)|[(-> & Hn & H1)|(_ & _ & _ & s1 & H1 & Hf)]]];
    rewrite Hs in H1; injection H1 as ->.
  - eexists _, _. split; [done|]. split; [done|].
    by rewrite commonPrefix_same.
  - by rewrite commonPrefix_nil_r in Hne.
  - done.
  - by destruct (found_spec _ _ _ _ Hf) as (_ & _ & _ & _ & _ & _ & Hfirst);
      apply Hfirst.
Qed.

End FollowFacts.

Section KeepFacts.
Context {A : Type} `{EqDecision A}.
Implicit Types (m : Mention.t A) (ms : list (Mention.t A)).
Implicit Types (old new value : list A).

(** X14. Mentions that begin before the first difference of the two texts
    and end there at the latest, that is with [0 <= pos < L] and
    [pos + length value <= L] for the length [L] of the longest common
    prefix, and whose value stands in the old text at [pos], are left as
    they are by [_updateMentions]: none moves, none is dropped.  A mention
    at [L] itself is not among them: a change at [L] moves it. *)
Theorem updateMentions_before_change old new ms :
  Forall (beforeChange old new) ms →
  updateMentions old new ms = Some (new, ms).
Proof.
  intros Hall. unfold updateMentions.
  destruct (diffChars_valid old new) as (s & Hs & _). rewrite Hs.
  assert (Forall (fun m =>
            Mention.Make (trackPos s (Some 0) (Mention.pos m))
                         (Mention.value m) (Mention.uid m) = m
            ∧ inPlace new m) ms) as Hms.
  { eapply Forall_impl; [exact Hall|].
    intros m (p & v & Hp & Hv & Hlo & Hfit & Htext).
    assert (commonPrefix old new ≠ []) as Hne
      by (intros Hnil; rewrite Hnil in Hlo; simpl in Hlo; lia).
    destruct (first_common _ _ _ Hs Hne) as (c & r & -> & Hcom & Hvc).
    destruct (follow_one old new (c :: r) 0 c (commonPrefix old new) m p v)
      as [Hmove Hin]; try done; simpl; try (unfold oldLength; simpl; lia).
    assert (movedTo m (p + newLength (take 0 (c :: r))
                       - oldLength (take 0 (c :: r))) = m) as Hsame.
    { unfold movedTo. destruct m as [pm vm um]. simpl in Hp |- *.
      rewrite Hp. do 2 f_equal. unfold newLength, oldLength. simpl. lia. }
    rewrite Hsame in Hmove, Hin. done. }
  rewrite shiftLoop_track.
  assert ((fun m => Mention.Make (trackPos s (Some 0) (Mention.pos m))
                                 (Mention.value m) (Mention.uid m)) <$> ms
          = ms) as ->.
  { rewrite <- (list_fmap_id ms) at 2. apply list_fmap_ext.
    intros i m Hi. by destruct (Forall_lookup_1 _ _ _ _ Hms Hi). }
  rewrite pruneLoop_all; [done|].
  eapply Forall_impl; [exact Hms|]. by intros m [_ ?].
Qed.

Lemma pruneLoop_empty ms :
  Forall (fun m => ∃ v, Mention.value m = Some v ∧ v ≠ []) ms →
  pruneLoop (A:=A) [] ms = Some [].
Proof.
  induction 1 as [|m ms (v & Hv & Hne) _ IH]; [done|].
  simpl. rewrite IH, Hv. unfold pieceAt. rewrite substring_empty.
  by rewrite bool_decide_eq_true_2.
Qed.

Lemma updateMentions_empty old ms :
  Forall (fun m => ∃ v, Mention.value m = Some v ∧ v ≠ []) ms →
  updateMentions old [] ms = Some ([], []).
Proof.
  intros Hall. unfold updateMentions.
  destruct (diffChars_valid old []) as (s & Hs & _). rewrite Hs.
  rewrite pruneLoop_empty; [done|].
  rewrite shiftLoop_track, Forall_fmap.
  eapply Forall_impl; [exact Hall|]. by intros m ?.
Qed.

End KeepFacts.

(** X15. [clear] on a widget whose mentions all have a non-empty value
    leaves an empty input, no mention and an empty hidden field; the
    highlighter is emptied when the preview is on and untouched when it is
    off. *)
Theorem clear_empties markup preview w :
  Forall (fun m => ∃ v, Mention.value m = Some v ∧ v ≠ []) (mentions w) →
  clear markup preview w
  = Some (Widget [] [] [] [] (if preview then [] else highlighterHtml w)).
Proof.
  intros Hall. unfold clear, update. simpl.
  rewrite updateMentions_empty by done.
  unfold updateValue. simpl. by destruct preview.
Qed.

(** ** More on the diff *)

Section DiffFacts.
Context {A : Type} `{EqDecision A}.
Implicit Types (c l : component A) (cs r s : list (component A)).
Implicit Types (old new t : list A).

Lemma found_flags old new d s : found old new d s → Forall searchFlags s.
Proof.
  intros (cs & -> & Hall & _). unfold buildValues.
  pose proof (buildValuesFrom_header old new cs (Some 0) (Some 0)) as Hh.
  revert Hh Hall. generalize (buildValuesFrom old new cs (Some 0) (Some 0)).
  intros s Hh Hall. revert s Hh.
  induction Hall as [|c cs Hc Hall IH]; intros [|c' s] Hh; try done.
  rewrite !fmap_cons in Hh.
  pose proof (f_equal head Hh) as Hhd. pose proof (f_equal tail Hh) as Htl.
  simpl in Hhd, Htl.
  apply Forall_cons. split; [|by apply IH].
  destruct Hc as (_ & _ & Hk). unfold header in Hhd.
  assert (added c' = added c ∧ removed c' = removed c) as [Ha Hr]
    by (split; congruence).
  unfold searchFlags. rewrite Ha, Hr. done.
Qed.

Lemma commonPrefix_app (xs t : list A) : commonPrefix xs (xs ++ t) = xs.
Proof.
  induction xs as [|a xs IH]; [by destruct t|].
  simpl. by rewrite decide_True, IH.
Qed.

Lemma commonPrefix_app_l (xs t : list A) : commonPrefix (xs ++ t) xs = xs.
Proof.
  induction xs as [|a xs IH]; [by destruct t|].
  simpl. by rewrite decide_True, IH.
Qed.

(** A script tail that adds [t] and takes nothing from the old text is
    one added component. *)
Lemma only_added r t :
  Forall counted r → Forall searchFlags r → noAdjacent r →
  oldValues r = Some [] → newValues r = Some t → t ≠ [] →
  r = [Component (Some (Z.of_nat (length t))) (Some true) None (Some t)].
Proof.
  intros Hcnt Hfl Hadj Ho Hn Ht.
  assert (∀ c r' , Forall counted (c :: r') → Forall searchFlags (c :: r') →
            oldValues (c :: r') = Some [] →
            added c = Some true ∧ removed c = None ∧ oldValues r' = Some [])
    as Hhead.
  { intros c r' [(v & Hv & _ & Hne) _]%Forall_cons [Hk _]%Forall_cons.
    unfold oldValues. rewrite valuesOf_cons. unfold isAdded.
    destruct Hk as [[-> ->]|[[-> ->]|[-> ->]]]; simpl; try done;
      rewrite Hv; destruct (valuesOf _ r'); try done;
      intros [= Happ]; by apply app_eq_nil in Happ as [? _]. }
  destruct r as [|c r'].
  { unfold newValues in Hn. rewrite valuesOf_nil in Hn. congruence. }
  destruct (Hhead _ _ Hcnt Hfl Ho) as (Ha & Hr & Ho').
  destruct r' as [|c2 r''].
  - apply Forall_cons in Hcnt as [(v & Hv & Hc & _) _].
    unfold newValues in Hn. rewrite valuesOf_cons, valuesOf_nil in Hn.
    unfold isRemoved in Hn. rewrite Hr, Hv in Hn. simpl in Hn.
    rewrite app_nil_r in Hn. injection Hn as ->.
    destruct c; simpl in *; by subst.
  - exfalso.
    apply Forall_cons in Hcnt as [_ Hcnt]. apply Forall_cons in Hfl as [_ Hfl].
    destruct (Hhead _ _ Hcnt Hfl Ho') as (Ha2 & Hr2 & _).
    destruct Hadj as [Hk _]. apply Hk. split; congruence.
Qed.

Lemma only_removed r t :
  Forall counted r → Forall searchFlags r → noAdjacent r →
  newValues r = Some [] → oldValues r = Some t → t ≠ [] →
  r = [Component (Some (Z.of_nat (length t))) None (Some true) (Some t)].
Proof.
  intros Hcnt Hfl Hadj Hn Ho Ht.
  assert (∀ c r' , Forall counted (c :: r') → Forall searchFlags (c :: r') →
            newValues (c :: r') = Some [] →
            added c = None ∧ removed c = Some true ∧ newValues r' = Some [])
    as Hhead.
  { intros c r' [(v & Hv & _ & Hne) _]%Forall_cons [Hk _]%Forall_cons.
    unfold newValues. rewrite valuesOf_cons. unfold isRemoved.
    destruct Hk as [[-> ->]|[[-> ->]|[-> ->]]]; simpl; try done;
      rewrite Hv; destruct (valuesOf _ r'); try done;
      intros [= Happ]; by apply app_eq_nil in Happ as [? _]. }
  destruct r as [|c r'].
  { unfold oldValues in Ho. rewrite valuesOf_nil in Ho. congruence. }
  destruct (Hhead _ _ Hcnt Hfl Hn) as (Ha & Hr & Hn').
  destruct r' as [|c2 r''].
  - apply Forall_cons in Hcnt as [(v & Hv & Hc & _) _].
    unfold oldValues in Ho. rewrite valuesOf_cons, valuesOf_nil in Ho.
    unfold isAdded in Ho. rewrite Ha, Hv in Ho. simpl in Ho.
    rewrite app_nil_r in Ho. injection Ho as ->.
    destruct c; simpl in *; by subst.
  - exfalso.
    apply Forall_cons in Hcnt as [_ Hcnt]. apply Forall_cons in Hfl as [_ Hfl].
    destruct (Hhead _ _ Hcnt Hfl Hn') as (Ha2 & Hr2 & _).
    destruct Hadj as [Hk _]. apply Hk. split; congruence.
Qed.

(** The head of a search script over a non-empty common prefix. *)
Lemma prefix_head old new d s :
  found old new d s → commonPrefix old new ≠ [] →
  ∃ r, s = Component (Some (Z.of_nat (length (commonPrefix old new))))
                     None None (Some (commonPrefix old new)) :: r
       ∧ Forall counted r ∧ Forall searchFlags r ∧ noAdjacent r
       ∧ (∀ o, oldValues s = Some o →
               ∃ o', oldValues r = Some o' ∧ o = commonPrefix old new ++ o')
       ∧ (∀ n, newValues s = Some n →
               ∃ n', newValues r = Some n' ∧ n = commonPrefix old new ++ n').
Proof.
  intros Hf Hne.
  destruct (found_spec _ _ _ _ Hf)
    as (_ & _ & _ & Hcnt & Hadj & _ & Hfirst).
  pose proof (found_flags _ _ _ _ Hf) as Hfl.
  destruct (Hfirst Hne) as (c & r & -> & Hcom & Hvc).
  apply Forall_cons in Hcnt as [(v & Hv & Hc & _) Hcnt].
  apply Forall_cons in Hfl as [Hk Hfl].
  rewrite Hvc in Hv. injection Hv as <-.
  assert (added c = None ∧ removed c = None) as [Ha Hr].
  { unfold isCommon, isAdded, isRemoved in Hcom.
    destruct Hk as [[-> ->]|[[Ha Hr]|[Ha Hr]]]; [done| |];
      rewrite Ha, Hr in Hcom; done. }
  exists r.
  assert (c = Component (Some (Z.of_nat (length (commonPrefix old new))))
                        None None (Some (commonPrefix old new))) as ->
    by (destruct c; simpl in *; by subst).
  split_and!; try done.
  - by destruct r as [|? ?]; [|destruct Hadj].
  - intros o. unfold oldValues. rewrite valuesOf_cons. simpl.
    destruct (valuesOf _ r) as [o'|]; [|done]. intros [= <-]. by exists o'.
  - intros n. unfold newValues. rewrite valuesOf_cons. simpl.
    destruct (valuesOf _ r) as [n'|]; [|done]. intros [= <-]. by exists n'.
Qed.

(** X16. Typing at the end: for a non-empty [old] and a non-empty [t], the
    script from [old] to [old ++ t] is the common component [old] followed
    by the added component [t]. *)
Theorem diffChars_append old t :
  old ≠ [] → t ≠ [] →
  diffChars old (old ++ t)
  = Script [Component (Some (Z.of_nat (length old))) None None (Some old);
            Component (Some (Z.of_nat (length t))) (Some true) None (Some t)].
Proof.
  intros Ho Ht.
  destruct (diffChars_cases old (old ++ t))
    as [[Heq _]|[(_ & Hn & _)|[(-> & _)|(_ & _ & _ & s & Hs & Hf)]]].
  - apply (f_equal length) in Heq. rewrite length_app in Heq.
    destruct t; [done|]. simpl in Heq. lia.
  - by apply app_eq_nil in Hn as [? _].
  - done.
  - rewrite Hs. f_equal.
    destruct (found_spec _ _ _ _ Hf) as ([Hov Hnv] & _).
    destruct (prefix_head _ _ _ _ Hf) as (r & -> & Hcnt & Hfl & Hadj & Hso & Hsn).
    { by rewrite commonPrefix_app. }
    rewrite commonPrefix_app in *.
    destruct (Hso _ Hov) as (o' & Ho' & Heo).
    destruct (Hsn _ Hnv) as (n' & Hn' & Hen).
    apply app_inv_head in Hen as <-.
    rewrite <- (app_nil_r old) in Heo at 1. apply app_inv_head in Heo as <-.
    f_equal. by apply only_added.
Qed.

(** X17. Deleting at the end: for a non-empty [new] and a non-empty [t], the
    script from [new ++ t] to [new] is the common component [new] followed
    by the removed component [t]. *)
Theorem diffChars_truncate new t :
  new ≠ [] → t ≠ [] →
  diffChars (new ++ t) new
  = Script [Component (Some (Z.of_nat (length new))) None None (Some new);
            Component (Some (Z.of_nat (length t))) None (Some true) (Some t)].
Proof.
  intros Hn Ht.
  destruct (diffChars_cases (new ++ t) new)
    as [[Heq _]|[(_ & -> & _)|[(Ho & _)|(_ & _ & _ & s & Hs & Hf)]]].
  - apply (f_equal length) in Heq. rewrite length_app in Heq.
    destruct t; [done|]. simpl in Heq. lia.
  - done.
  - by apply app_eq_nil in Ho as [? _].
  - rewrite Hs. f_equal.
    destruct (found_spec _ _ _ _ Hf) as ([Hov Hnv] & _).
    destruct (prefix_head _ _ _ _ Hf) as (r & -> & Hcnt & Hfl & Hadj & Hso & Hsn).
    { by rewrite commonPrefix_app_l. }
    rewrite commonPrefix_app_l in *.
    destruct (Hso _ Hov) as (o' & Ho' & Heo).
    destruct (Hsn _ Hnv) as (n' & Hn' & Hen).
    apply app_inv_head in Heo as <-.
    rewrite <- (app_nil_r new) in Hen at 1. apply app_inv_head in Hen as <-.
    f_equal. by apply only_removed.
Qed.

End DiffFacts.

Section ShapeFacts.
Context {A : Type} `{EqDecision A}.
Implicit Types (c l : component A) (cs r s : list (component A)).
Implicit Types (old new : list A) (p : path A).

(** X18. [pushComponent], with any pair of flags, keeps a component list
    free of neighbours of the same kind.  When the last component has
    exactly these flags it is replaced by one with the count plus 1, and
    the components before it stay; otherwise the list stays and a component
    of count 1 comes after it.  Either way the last component afterwards
    carries the two flags and has no value. *)
Theorem pushComponent_noAdjacent cs (a r : option bool) :
  noAdjacent cs →
  noAdjacent (pushComponent cs a r)
  ∧ (∃ l, last (pushComponent cs a r) = Some l
          ∧ added l = a ∧ removed l = r ∧ value l = None)
  ∧ (∀ cs' l, cs = cs' ++ [l] → added l = a → removed l = r →
       pushComponent cs a r
       = cs' ++ [Component (plus (count l) (Some 1)) a r None])
  ∧ ((∀ l, last cs = Some l → ¬ (added l = a ∧ removed l = r)) →
       pushComponent cs a r = cs ++ [Component (Some 1) a r None]).
Proof.
  intros Hadj.
  assert (∀ cs' l, cs = cs' ++ [l] → added l = a → removed l = r →
            pushComponent cs a r
            = cs' ++ [Component (plus (count l) (Some 1)) a r None]) as Hmerge.
  { intros cs' l -> Ha Hr. rewrite pushComponent_snoc.
    by rewrite !bool_decide_eq_true_2. }
  assert ((∀ l, last cs = Some l → ¬ (added l = a ∧ removed l = r)) →
          pushComponent cs a r = cs ++ [Component (Some 1) a r None]) as Hpush.
  { intros Hno. destruct cs as [|c0 cs0 _] using rev_ind; [done|].
    rewrite pushComponent_snoc.
    destruct (bool_decide (added c0 = a) && bool_decide (removed c0 = r)) eqn:Hb.
    - apply andb_true_iff in Hb
        as [Ha%bool_decide_eq_true_1 Hr%bool_decide_eq_true_1].
      exfalso. apply (Hno c0); [apply last_snoc|done].
    - by rewrite <- app_assoc. }
  split_and!; [| |exact Hmerge|exact Hpush].
  - destruct cs as [|c0 cs0 _] using rev_ind; [by rewrite pushComponent_nil|].
    destruct (decide (added c0 = a ∧ removed c0 = r)) as [[Ha Hr]|Hne].
    + rewrite (Hmerge cs0 c0 eq_refl Ha Hr).
      apply noAdjacent_snoc in Hadj as [Hadj Hl].
      apply noAdjacent_snoc. split; [done|].
      intros l Hlast [H1 H2]. apply (Hl l Hlast).
      split; simpl in *; congruence.
    + rewrite Hpush.
      * apply noAdjacent_snoc. split; [done|].
        rewrite last_snoc. intros l [= <-] [H1 H2]. by apply Hne.
      * rewrite last_snoc. by intros l [= <-].
  - destruct cs as [|c0 cs0 _] using rev_ind.
    { rewrite pushComponent_nil. by eexists. }
    destruct (decide (added c0 = a ∧ removed c0 = r)) as [[Ha Hr]|Hne].
    + rewrite (Hmerge cs0 c0 eq_refl Ha Hr), last_snoc. by eexists.
    + rewrite Hpush, last_snoc; [by eexists|].
      rewrite last_snoc. by intros l [= <-].
Qed.

(** X19. From a path inside the two strings, [extractCommon] moves on by
    exactly the longest common prefix of what is left of them, appends one
    common component with that count when it is not zero, and returns the
    position reached in the old string. *)
Theorem extractCommon_longest old new p (k : Z) :
  -1 ≤ newPos p → -1 ≤ newPos p - k →
  extractCommon old new p k
  = let c := length (commonPrefix (drop (Z.to_nat (newPos p - k + 1)) old)
                                  (drop (Z.to_nat (newPos p + 1)) new)) in
    (Path (newPos p + Z.of_nat c)
          (if decide (c = 0%nat) then components p
           else components p ++ [Component (Some (Z.of_nat c)) None None None]),
     newPos p + Z.of_nat c - k).
Proof.
  intros Hn Ho.
  destruct (extractCommon_spec old new p k Hn Ho) as (c & -> & _ & _ & ->).
  unfold snake, consumedNew, consumedOld. simpl.
  case_decide; [|done]. by rewrite app_nil_r.
Qed.

(** X20. The search stops at the edit distance: for two different non-empty
    strings, every pass at an edit length below the reference distance goes
    on without a script, and the pass at the distance itself returns the
    script of [diffChars]. *)
Theorem search_stops_at_distance old new :
  old ≠ new → old ≠ [] → new ≠ [] →
  ∃ s bp,
    failedPasses old new (editDistance old new - 1)%nat 1 (seedBestPath old new)
    = Some bp
    ∧ execEditLength old new (Z.of_nat (editDistance old new)) bp = Return s
    ∧ diffChars old new = Script s.
Proof.
  intros Hne Ho Hn.
  destruct (diffChars_search old new Hne Ho Hn) as (s & bp & Hs & _ & Hd & Hfp & Hret).
  exists s, bp. split_and!; try done.
  replace (editDistance old new - 1)%nat
    with (Z.to_nat (Z.of_nat (editDistance old new) - 1)) by lia. done.
Qed.

Lemma size_bound r :
  Forall counted r → Forall searchFlags r → noAdjacent r →
  (length r ≤ 2 * valueCost r + 1)%nat
  ∧ (∀ c r', r = c :: r' → isCommon c = false →
             (length r ≤ 2 * valueCost r)%nat).
Proof.
  induction r as [|c r IH]; intros Hcnt Hfl Hadj.
  { split; [simpl; lia|done]. }
  apply Forall_cons in Hcnt as [(v & Hv & _ & Hne) Hcnt].
  apply Forall_cons in Hfl as [Hk Hfl].
  assert (noAdjacent r) as Hadj' by (by destruct r as [|? ?]; [|destruct Hadj]).
  destruct (IH Hcnt Hfl Hadj') as [IH1 IH2].
  assert (1 ≤ length v)%nat by (destruct v; [done|simpl; lia]).
  rewrite valueCost_cons, Hv. simpl default. simpl length.
  destruct (isCommon c) eqn:Hcom.
  - assert (added c = None ∧ removed c = None) as [Ha Hr].
    { unfold isCommon, isAdded, isRemoved in Hcom.
      destruct Hk as [[-> ->]|[[Ha Hr]|[Ha Hr]]]; [done| |];
        rewrite Ha, Hr in Hcom; done. }
    unfold isAdded, isRemoved. rewrite Ha, Hr. simpl.
    split; [|by intros ? ? [= <- <-] ?; congruence].
    destruct r as [|c2 r2]; [simpl; lia|].
    assert (isCommon c2 = false) as Hc2.
    { destruct Hadj as [Hsk _]. apply Forall_cons in Hfl as [Hk2 _].
      unfold isCommon, isAdded, isRemoved.
      destruct Hk2 as [[Ha2 Hr2]|[[-> ->]|[-> ->]]]; [|done|done].
      exfalso. apply Hsk. split; congruence. }
    specialize (IH2 _ _ eq_refl Hc2). simpl in IH2 |- *. lia.
  - assert (isAdded c || isRemoved c = true) as ->.
    { unfold isCommon in Hcom. by destruct (isAdded c), (isRemoved c). }
    split; [lia|]. intros _ _ _ _. lia.
Qed.

(** X21. A script has at most twice the edit distance plus one
    components. *)
Theorem diffChars_size old new :
  ∃ s, diffChars old new = Script s
       ∧ (length s ≤ 2 * editDistance old new + 1)%nat.
Proof.
  destruct (diffChars_cases old new)
    as [[_ Hs]|[(_ & _ & Hs)|[(_ & _ & Hs)|(_ & _ & _ & s & Hs & Hf)]]];
    try (eexists; split; [exact Hs|simpl; lia]).
  exists s. split; [done|].
  destruct (found_spec _ _ _ _ Hf) as (_ & _ & Hcost & Hcnt & Hadj & _).
  pose proof (found_flags _ _ _ _ Hf) as Hfl.
  destruct (size_bound s Hcnt Hfl Hadj) as [Hb _]. lia.
Qed.

End ShapeFacts.

(** ** The theorems on the widget and the diff at concrete texts *)

(** The first snake of ["abcd"] against ["abxd"]. *)
Lemma extractCommon_longest_witness :
  extractCommon (str "abcd") (str "abxd") (Path (-1) []) 0
  = (Path 1 [Component (Some 2) None None None], 1).
Proof.
  rewrite extractCommon_longest.
  - vm_compute. reflexivity.
  - simpl. lia.
  - simpl. lia.
Defined.

(** ["ab"] against ["ba"]: distance 2, one pass without a script. *)
Lemma search_stops_at_distance_witness :
  ∃ s bp,
    failedPasses (str "ab") (str "ba") 1 1 (seedBestPath (str "ab") (str "ba"))
    = Some bp
    ∧ execEditLength (str "ab") (str "ba") 2 bp = Return s
    ∧ diffChars (str "ab") (str "ba") = Script s.
Proof.
  destruct (search_stops_at_distance (str "ab") (str "ba"))
    as (s & bp & H1 & H2 & H3).
  - vm_compute. discriminate.
  - vm_compute. discriminate.
  - vm_compute. discriminate.
  - exists s, bp. split; [exact H1|]. split; [exact H2|exact H3].
Defined.

(** An exclamation mark typed after ["hello"]. *)
Lemma diffChars_append_witness :
  diffChars (str "hello") (str "hello!")
  = Script [Component (Some 5) None None (Some (str "hello"));
            Component (Some 1) (Some true) None (Some (str "!"))].
Proof.
  apply (diffChars_append (str "hello") (str "!")).
  - vm_compute. discriminate.
  - vm_compute. discriminate.
Defined.

(** The exclamation mark deleted again. *)
Lemma diffChars_truncate_witness :
  diffChars (str "hello!") (str "hello")
  = Script [Component (Some 5) None None (Some (str "hello"));
            Component (Some 1) None (Some true) (Some (str "!"))].
Proof.
  apply (diffChars_truncate (str "hello") (str "!")).
  - vm_compute. discriminate.
  - vm_compute. discriminate.
Defined.

(** An insertion pushed after a snake of two, and a second one after
    it. *)
Lemma pushComponent_noAdjacent_witness :
  noAdjacent (pushComponent [Component (A:=ascii) (Some 2) None None None]
                            (Some true) None)
  ∧ pushComponent [Component (A:=ascii) (Some 2) None None None;
                   Component (Some 1) (Some true) None None] (Some true) None
    = [Component (Some 2) None None None;
       Component (Some 2) (Some true) None None].
Proof.
  split.
  - destruct (pushComponent_noAdjacent
                [Component (A:=ascii) (Some 2) None None None] (Some true) None)
      as (Hadj & _).
    + simpl. exact I.
    + exact Hadj.
  - destruct (pushComponent_noAdjacent
                [Component (A:=ascii) (Some 2) None None None;
                 Component (Some 1) (Some true) None None] (Some true) None)
      as (_ & _ & Hmerge & _).
    + simpl. split; [|exact I]. intros [H1 _]. discriminate H1.
    + apply (Hmerge [Component (Some 2) None None None]
                    (Component (Some 1) (Some true) None None));
        reflexivity.
Defined.

(** A comma typed before the mention of John moves it from 6 to 7. *)
Lemma updateMentions_follows_witness :
  ∃ ms', updateMentions (str "hello John!") (str "hello, John!") [john]
         = Some (str "hello, John!", ms')
         ∧ movedTo john 7 ∈ ms'
         ∧ inPlace (str "hello, John!") (movedTo john 7).
Proof.
  apply (updateMentions_follows (str "hello John!") (str "hello, John!") [john]
           [Component (Some 5) None None (Some (str "hello"));
            Component (Some 1) (Some true) None (Some (str ","));
            Component (Some 6) None None (Some (str " John!"))]
           2 (Component (Some 6) None None (Some (str " John!")))
           (str " John!") john 6 (str "John")).
  - vm_compute. reflexivity.
  - constructor; [|constructor]. exists (str "John"). reflexivity.
  - reflexivity.
  - exact I.
  - reflexivity.
  - constructor.
  - reflexivity.
  - reflexivity.
  - vm_compute. discriminate.
  - vm_compute. reflexivity.
  - vm_compute. discriminate.
  - vm_compute. reflexivity.
Defined.

(** The same edit, and the update run once more on its result. *)
Lemma updateMentions_again_witness :
  updateMentions (str "hello, John!") (str "hello, John!") [movedTo john 7]
  = Some (str "hello, John!", [movedTo john 7]).
Proof.
  apply (updateMentions_again (str "hello John!") (str "hello, John!") [john]
           (str "hello, John!") [movedTo john 7]).
  vm_compute. reflexivity.
Defined.

(** Typing at the end of ["hi Bob, ok"] leaves the mention of Bob alone. *)
Lemma updateMentions_before_change_witness :
  updateMentions (str "hi Bob, ok") (str "hi Bob, okay") [bob]
  = Some (str "hi Bob, okay", [bob]).
Proof.
  apply updateMentions_before_change.
  constructor; [|constructor].
  exists 3, (str "Bob").
  split; [reflexivity|]. split; [reflexivity|].
  split; [vm_compute; split; [discriminate|reflexivity]|].
  split; [vm_compute; discriminate|]. vm_compute. reflexivity.
Defined.

(** At the end of the common prefix the strict bound is needed: a mention
    with an empty value at position 2 of ["ab"] moves to 3 when a character
    is typed at 2. *)
Example boundary_mention_moves :
  updateMentions (str "ab") (str "abc") [Mention.Make (Some 2) (Some []) (str "7")]
  = Some (str "abc", [Mention.Make (Some 3) (Some []) (str "7")]).
Proof. vm_compute. reflexivity. Qed.

(** [clear] on a widget that shows ["hi Bob"] with its mention. *)
Lemma clear_empties_witness :
  clear markupMention true
    (Widget (str "hi Bob") (str "hi Bob") [bob] (str "hi @[Bob](7)")
            (str "hi <strong>Bob</strong>"))
  = Some (Widget [] [] [] [] []).
Proof.
  apply (clear_empties markupMention true
           (Widget (str "hi Bob") (str "hi Bob") [bob] (str "hi @[Bob](7)")
                   (str "hi <strong>Bob</strong>"))).
  constructor; [|constructor].
  exists (str "Bob"). split; [reflexivity|]. vm_compute. discriminate.
Defined.

(** ["hi Bob"] with the mention written as its bare value. *)
Lemma hiddenValue_plain_witness :
  hiddenValue (fun m => default [] (Mention.value m)) (str "hi Bob") [bob]
  = Some (str "hi Bob").
Proof.
  apply hiddenValue_plain.
  exists 3, (str "Bob").
  split; [reflexivity|]. split; [reflexivity|].
  split; [lia|]. split; [vm_compute; reflexivity|]. simpl. lia.
Defined.

(** ["hi Bob"] with the markup of its mention: 6 characters more. *)
Lemma hiddenValue_markup_length_witness :
  ∃ h, hiddenValue markupMention (str "hi Bob") [bob] = Some h
       ∧ length h = 12%nat.
Proof.
  destruct (hiddenValue_markup_length (str "hi Bob") [bob]) as (h & Hh & Hl).
  - exists 3, (str "Bob").
    split; [reflexivity|]. split; [reflexivity|].
    split; [lia|]. split; [vm_compute; reflexivity|]. simpl. lia.
  - exists h. split; [exact Hh|]. rewrite Hl. vm_compute. reflexivity.
Defined.

(** Two spellings of one text, escaped alike. *)
Lemma escapeHtml_inj_witness : str "a<b" = str "a<" ++ str "b".
Proof.
  apply escapeHtml_inj. vm_compute. reflexivity.
Defined.

(** A pattern that does not occur, and one of four characters that does. *)
Lemma replaceWithSpaces_shorter_witness :
  replaceWithSpaces (str "abc") (str "x") = str "abc"
  ∧ ∃ pre post,
      str "hello world" = pre ++ str "lo w" ++ post
      ∧ replaceWithSpaces (str "hello world") (str "lo w")
        = pre ++ replicate 3 " "%char ++ post.
Proof.
  split.
  - apply (replaceWithSpaces_shorter (str "abc") (str "x")).
    intros [|a [|b [|c [|d pre]]]] post Heq; vm_compute in Heq; discriminate.
  - destruct (replaceWithSpaces_shorter (str "hello world") (str "lo w"))
      as [_ Hocc].
    destruct Hocc as (pre & post & H1 & H2 & _).
    + vm_compute. discriminate.
    + exists (str "hel"), (str "orld"). vm_compute. reflexivity.
    + exists pre, post. split; [exact H1|exact H2].
Defined.

(** A mention at 5 added to mentions at 3 and 9. *)
Lemma addMention_sorted_witness :
  sortedByPos
    (addMention [bob; Mention.Make (Some 9) (Some (str "Al")) (str "2")]
                (Mention.Make (Some 5) (Some (str "Cy")) (str "3"))).
Proof.
  apply (addMention_sorted
           [bob; Mention.Make (Some 9) (Some (str "Al")) (str "2")]
           (Mention.Make (Some 5) (Some (str "Cy")) (str "3"))).
  repeat constructor; by eexists.
Defined.
